(** * GENIE event-generation core: binding-energy aggregator, Bardin IMD
      cross section and interaction selector

    A shallow embedding of
    - [NucBindEnergyAggregator::ProcessEventRecord] and [FindMotherNucleus],
    - [BardinIMDRadCorPXSec] ([XSec], [ValidKinematics], [Fa], [P], [C],
      [Li2], [LoadSubAlg], [Configure]) and its integrand,
    - the weighted channel selection of [PhysInteractionSelector],
    together with the properties the specification states about them.

    C++ [double] values are embedded twice behind one interface
    ([DoubleOps]): as IEEE-754 binary64 numbers (Rocq's primitive floats),
    on which the code can be run, and as extended reals with exact
    arithmetic and the IEEE rules for infinities and not-a-number, on which
    the algebraic properties are proved. *)

From Stdlib Require Import Floats.PrimFloat Uint63.
From Stdlib Require Import Reals Lra Psatz ZArith List Bool String.
From stdpp Require Import base list.

(** ** The arithmetic of [double] *)

(** The operations the sources use on [double]. *)
Class DoubleOps (D : Type) := {
  d_zero : D;
  d_one : D;
  d_add : D -> D -> D;
  d_sub : D -> D -> D;
  d_mul : D -> D -> D;
  d_div : D -> D -> D;
  d_sqrt : D -> D;
  d_eqb : D -> D -> bool;
  d_ltb : D -> D -> bool;
  d_leb : D -> D -> bool
}.

Declare Scope dbl_scope.
Delimit Scope dbl_scope with dbl.
Infix "+" := d_add : dbl_scope.
Infix "-" := d_sub : dbl_scope.
Infix "*" := d_mul : dbl_scope.
Infix "/" := d_div : dbl_scope.
Infix "==" := d_eqb (at level 70, no associativity) : dbl_scope.
Infix "<?" := d_ltb : dbl_scope.
Infix "<=?" := d_leb : dbl_scope.

(** *** IEEE-754 binary64 *)

#[export] Instance binary64 : DoubleOps float := {
  d_zero := 0%float;
  d_one := 1%float;
  d_add := PrimFloat.add;
  d_sub := PrimFloat.sub;
  d_mul := PrimFloat.mul;
  d_div := PrimFloat.div;
  d_sqrt := PrimFloat.sqrt;
  d_eqb := PrimFloat.eqb;
  d_ltb := PrimFloat.ltb;
  d_leb := PrimFloat.leb
}.

(** *** Extended reals: exact arithmetic, IEEE special values

    A [double] is a real number, an infinity or not-a-number.  Finite
    results are exact (no rounding, no overflow); zero carries no sign and
    divides like [+0]. *)

Inductive double : Type :=
| Fin (r : R)
| PInf
| NInf
| NaN.

(** The sign of a real: [Lt] negative, [Eq] zero, [Gt] positive. *)
Definition Rsign (r : R) : comparison :=
  match total_order_T r 0 with
  | inleft (left _) => Lt
  | inleft (right _) => Eq
  | inright _ => Gt
  end.

Definition Rltb (a b : R) : bool := if Rlt_dec a b then true else false.
Definition Rleb (a b : R) : bool := if Rle_dec a b then true else false.
Definition Reqb (a b : R) : bool := if Req_dec_T a b then true else false.

Module Dbl.

Definition neg (x : double) : double :=
  match x with
  | Fin a => Fin (- a)
  | PInf => NInf
  | NInf => PInf
  | NaN => NaN
  end.

Definition add (x y : double) : double :=
  match x, y with
  | NaN, _ | _, NaN => NaN
  | Fin a, Fin b => Fin (a + b)
  | PInf, NInf | NInf, PInf => NaN
  | PInf, _ | _, PInf => PInf
  | NInf, _ | _, NInf => NInf
  end.

Definition sub (x y : double) : double := add x (neg y).

(** An infinity with the sign of [s], or not-a-number when [s] is zero. *)
Definition signed_inf (s : comparison) : double :=
  match s with Gt => PInf | Lt => NInf | Eq => NaN end.

Definition sign_mul (s t : comparison) : comparison :=
  match s, t with
  | Eq, _ | _, Eq => Eq
  | Gt, Gt | Lt, Lt => Gt
  | Gt, Lt | Lt, Gt => Lt
  end.

Definition mul (x y : double) : double :=
  match x, y with
  | NaN, _ | _, NaN => NaN
  | Fin a, Fin b => Fin (a * b)
  | Fin a, PInf | PInf, Fin a => signed_inf (Rsign a)
  | Fin a, NInf | NInf, Fin a => signed_inf (sign_mul Lt (Rsign a))
  | PInf, PInf | NInf, NInf => PInf
  | PInf, NInf | NInf, PInf => NInf
  end.

Definition div (x y : double) : double :=
  match x, y with
  | NaN, _ | _, NaN => NaN
  | Fin a, Fin b =>
      match Rsign b with
      | Eq => signed_inf (Rsign a)
      | _ => Fin (a / b)
      end
  | Fin _, (PInf | NInf) => Fin 0
  | (PInf | NInf), (PInf | NInf) => NaN
  | PInf, Fin b => match Rsign b with Lt => NInf | _ => PInf end
  | NInf, Fin b => match Rsign b with Lt => PInf | _ => NInf end
  end.

Definition sqrt (x : double) : double :=
  match x with
  | Fin a => match Rsign a with Lt => NaN | _ => Fin (R_sqrt.sqrt a) end
  | PInf => PInf
  | NInf | NaN => NaN
  end.

(** [log] of the C library: minus infinity at zero, not-a-number below. *)
Definition log (x : double) : double :=
  match x with
  | Fin a => match Rsign a with Lt => NaN | Eq => NInf | Gt => Fin (ln a) end
  | PInf => PInf
  | NInf | NaN => NaN
  end.

Definition eqb (x y : double) : bool :=
  match x, y with
  | Fin a, Fin b => Reqb a b
  | PInf, PInf | NInf, NInf => true
  | _, _ => false
  end.

Definition ltb (x y : double) : bool :=
  match x, y with
  | NaN, _ | _, NaN => false
  | Fin a, Fin b => Rltb a b
  | NInf, (Fin _ | PInf) => true
  | Fin _, PInf => true
  | _, _ => false
  end.

Definition leb (x y : double) : bool :=
  match x, y with
  | NaN, _ | _, NaN => false
  | Fin a, Fin b => Rleb a b
  | NInf, _ => true
  | _, PInf => true
  | _, _ => false
  end.

Definition is_fin (x : double) : bool :=
  match x with Fin _ => true | _ => false end.

End Dbl.

#[export] Instance ideal : DoubleOps double := {
  d_zero := Fin 0;
  d_one := Fin 1;
  d_add := Dbl.add;
  d_sub := Dbl.sub;
  d_mul := Dbl.mul;
  d_div := Dbl.div;
  d_sqrt := Dbl.sqrt;
  d_eqb := Dbl.eqb;
  d_ltb := Dbl.ltb;
  d_leb := Dbl.leb
}.

(** ** Interactions (Interaction/Interaction.h, not part of the sources)

    Only what the modelled code reads: the target and the probe energy in
    the laboratory frame, the inelasticity y, and the three flag bits. *)

Record Target : Type := mkTarget {
  TargetZ : Z;   (* Target::Z(), the number of protons *)
  TargetA : Z
}.

#[export] Instance Target_eq_dec : EqDecision Target.
Proof. solve_decision. Defined.

Record InitialState (D : Type) : Type := mkInitialState {
  GetTarget : Target;
  GetProbeE : D   (* GetProbeE(kRfLab) *)
}.
Arguments mkInitialState {D}.
Arguments GetTarget {D}.
Arguments GetProbeE {D}.

Record Kinematics (D : Type) : Type := mkKinematics {
  y : D
}.
Arguments mkKinematics {D}.
Arguments y {D}.

Record Interaction (D : Type) : Type := mkInteraction {
  GetInitialState : InitialState D;
  GetKinematics : Kinematics D;
  kISkipProcessChk : bool;     (* TestBit(kISkipProcessChk) *)
  kISkipKinematicChk : bool;   (* TestBit(kISkipKinematicChk) *)
  kIAssumeFreeNucleon : bool   (* TestBit(kIAssumeFreeNucleon) *)
}.
Arguments mkInteraction {D}.
Arguments GetInitialState {D}.
Arguments GetKinematics {D}.
Arguments kISkipProcessChk {D}.
Arguments kISkipKinematicChk {D}.
Arguments kIAssumeFreeNucleon {D}.

(** ** The event record (GHEP) *)

(** [GHepStatus_t]: the two enumerators the aggregator names, and the rest
    of the enumeration by its code. *)
Inductive GHepStatus_t : Type :=
| kIStStableFinalState
| kIstNucleonTarget
| kIStOther (code : Z).

#[export] Instance GHepStatus_eq_dec : EqDecision GHepStatus_t.
Proof. solve_decision. Defined.

(** ROOT's [TLorentzVector(x, y, z, t)]. *)
Record TLorentzVector (D : Type) : Type := mkTLorentzVector {
  vX : D;
  vY : D;
  vZ : D;
  vT : D
}.
Arguments mkTLorentzVector {D}.
Arguments vX {D}.
Arguments vY {D}.
Arguments vZ {D}.
Arguments vT {D}.

Record GHepParticle (D : Type) : Type := mkGHepParticle {
  PdgCode : Z;
  Status : GHepStatus_t;
  FirstMother : Z;
  LastMother : Z;
  FirstDaughter : Z;
  LastDaughter : Z;
  P4 : TLorentzVector D;
  V4 : TLorentzVector D
}.
Arguments mkGHepParticle {D}.
Arguments PdgCode {D}.
Arguments Status {D}.
Arguments FirstMother {D}.
Arguments LastMother {D}.
Arguments FirstDaughter {D}.
Arguments LastDaughter {D}.
Arguments P4 {D}.
Arguments V4 {D}.

(** The record is a growable sequence of particles; mothers are positions
    in it, [-1] when unset. *)
Record GHepRecord (D : Type) : Type := mkGHepRecord {
  GetInteraction : Interaction D;
  particles : list (GHepParticle D)
}.
Arguments mkGHepRecord {D}.
Arguments GetInteraction {D}.
Arguments particles {D}.

(** What running a piece of the code can come to: a value, the
    dereference of a null pointer, a failed [assert], or (for the model of
    a loop) the step budget running out. *)
Inductive outcome (A : Type) : Type :=
| Ok (a : A)
| NullDeref
| AssertFailed
| OutOfFuel.
Arguments Ok {A}.
Arguments NullDeref {A}.
Arguments AssertFailed {A}.
Arguments OutOfFuel {A}.

Definition bind {A B : Type} (m : outcome A) (k : A -> outcome B) : outcome B :=
  match m with
  | Ok a => k a
  | NullDeref => NullDeref
  | AssertFailed => AssertFailed
  | OutOfFuel => OutOfFuel
  end.

Notation "'let*' x := m 'in' k" := (bind m (fun x => k))
  (at level 10, x name, m at level 100, k at level 200).

(** What the aggregator takes from the rest of GENIE (PDG library, nuclear
    utilities), none of it under the sources. *)
Class NuclearEnv (D : Type) := {
  Mass : GHepParticle D -> D;               (* GHepParticle::Mass() *)
  BindEnergyLastNucleon : Target -> D;      (* utils::nuclear *)
  IsNeutronOrProton : Z -> bool;            (* pdg::IsNeutronOrProton *)
  IsIon : Z -> bool;                        (* pdg::IsIon *)
  kPdgBindino : Z
}.

Section Aggregator.
Context {D : Type} {ops : DoubleOps D} {env : NuclearEnv D}.
Local Open Scope dbl_scope.

(** Modelled from the spec: the accessors and setters of [GHepParticle]
    (GHEP/GHepParticle.h, not under the sources) read and write the
    components of its 4-momentum. *)
Definition Px (p : GHepParticle D) : D := vX (P4 p).
Definition Py (p : GHepParticle D) : D := vY (P4 p).
Definition Pz (p : GHepParticle D) : D := vZ (P4 p).
Definition Energy (p : GHepParticle D) : D := vT (P4 p).

Definition SetP4 (v : TLorentzVector D) (p : GHepParticle D) : GHepParticle D :=
  mkGHepParticle (PdgCode p) (Status p) (FirstMother p) (LastMother p)
    (FirstDaughter p) (LastDaughter p) v (V4 p).

Definition SetEnergy (e : D) (p : GHepParticle D) : GHepParticle D :=
  SetP4 (mkTLorentzVector (Px p) (Py p) (Pz p) e) p.
Definition SetPx (x : D) (p : GHepParticle D) : GHepParticle D :=
  SetP4 (mkTLorentzVector x (Py p) (Pz p) (Energy p)) p.
Definition SetPy (x : D) (p : GHepParticle D) : GHepParticle D :=
  SetP4 (mkTLorentzVector (Px p) x (Pz p) (Energy p)) p.
Definition SetPz (x : D) (p : GHepParticle D) : GHepParticle D :=
  SetP4 (mkTLorentzVector (Px p) (Py p) x (Energy p)) p.

(** [TLorentzVector::P()], the magnitude of the 3-momentum, and
    [TLorentzVector::M2()], the invariant mass squared. *)
Definition P (v : TLorentzVector D) : D :=
  d_sqrt (vX v * vX v + vY v * vY v + vZ v * vZ v).
Definition M2 (v : TLorentzVector D) : D :=
  vT v * vT v - (vX v * vX v + vY v * vY v + vZ v * vZ v).

(** Modelled from the spec: [utils::math::NonNegative], which is not under
    the sources; the spec writes it [max(0, x)]. *)
Definition NonNegative (x : D) : D := if x <=? d_zero then d_zero else x.

(** Modelled from the spec: [GHepRecord::Particle(position)], which is not
    under the sources.  The record is an indexed sequence and a position
    is valid when it is at least 0 and below the length; any other
    position gives the null pointer. *)
Definition Particle (event_rec : GHepRecord D) (position : Z)
  : option (GHepParticle D) :=
  if bool_decide (position < 0)%Z then None
  else particles event_rec !! Z.to_nat position.

(** Modelled from the spec:
    [GHepRecord::AddParticle(pdg, status, mom1, mom2, dau1, dau2, p4, v4)],
    which is not under the sources: the particle is appended to the
    record. *)
Definition AddParticle (pdgc : Z) (ist : GHepStatus_t) (mom1 mom2 dau1 dau2 : Z)
    (p4 v4 : TLorentzVector D) (event_rec : GHepRecord D) : GHepRecord D :=
  mkGHepRecord (GetInteraction event_rec)
    (particles event_rec ++ [mkGHepParticle pdgc ist mom1 mom2 dau1 dau2 p4 v4]).

(** Writing through the pointer [p] to the particle at [ipos]. *)
Definition store (ipos : nat) (p : GHepParticle D) (event_rec : GHepRecord D)
  : GHepRecord D :=
  mkGHepRecord (GetInteraction event_rec) (<[ipos := p]> (particles event_rec)).

(** [NucBindEnergyAggregator::FindMotherNucleus].  The source calls
    [Status()], [FirstMother()] and [PdgCode()] on what
    [event_rec->Particle] returns without a null test. *)
Definition FindMotherNucleus (ipos : Z) (event_rec : GHepRecord D)
  : outcome (option (GHepParticle D)) :=
  match Particle event_rec ipos with
  | None => NullDeref
  | Some p =>
    let mother_pos := FirstMother p in
    if bool_decide (mother_pos <> -1)%Z then
      match Particle event_rec mother_pos with
      | None => NullDeref
      | Some mother =>
        if bool_decide (Status mother = kIstNucleonTarget) then
          let grandmother_pos := FirstMother mother in
          if bool_decide (grandmother_pos <> -1)%Z then
            match Particle event_rec grandmother_pos with
            | None => NullDeref
            | Some grandmother =>
              let grandmother_pdgc := PdgCode grandmother in
              if IsIon grandmother_pdgc then Ok (Some grandmother)
              else Ok None
            end
          else Ok None
        else Ok None
      end
    else Ok None
  end.

(** Lines 91-110 of [ProcessEventRecord]: the nucleon after the binding
    energy is taken from it. *)
Definition scale_of (bindE : D) (p : GHepParticle D) : D :=
  let M := Mass p in
  let En := Energy p - bindE in
  let pmag_old := P (P4 p) in
  let pmag_new := d_sqrt (NonNegative (En * En - M * M)) in
  pmag_new / pmag_old.

Definition SubtractBindingEnergy (bindE : D) (p : GHepParticle D)
  : GHepParticle D :=
  let En := Energy p - bindE in
  let scale := scale_of bindE p in
  let pxn := scale * Px p in
  let pyn := scale * Py p in
  let pzn := scale * Pz p in
  SetPz pzn (SetPy pyn (SetPx pxn (SetEnergy En p))).

(** Lines 103-105 and 118-119: the 4-momentum of the BINDINO. *)
Definition BindinoP4 (bindE : D) (p : GHepParticle D) : TLorentzVector D :=
  let scale := scale_of bindE p in
  let pxb := (d_one - scale) * Px p in
  let pyb := (d_one - scale) * Py p in
  let pzb := (d_one - scale) * Pz p in
  mkTLorentzVector pxb pyb pzb bindE.

(** The particle that [AddParticle] appends at line 124. *)
Definition Bindino (bindE : D) (p : GHepParticle D) : GHepParticle D :=
  mkGHepParticle kPdgBindino kIStStableFinalState (-1) (-1) (-1) (-1)
    (BindinoP4 bindE p) (mkTLorentzVector d_zero d_zero d_zero d_zero).

(** The body of the [while] loop for the particle [p] at [ipos]. *)
Definition visit (ipos : nat) (p : GHepParticle D) (event_rec : GHepRecord D)
  : outcome (GHepRecord D) :=
  let init_state := GetInitialState (GetInteraction event_rec) in
  let is_nucleon := IsNeutronOrProton (PdgCode p) in
  let is_in_final_state := bool_decide (Status p = kIStStableFinalState) in
  if is_nucleon && is_in_final_state then
    let* nucleus := FindMotherNucleus (Z.of_nat ipos) event_rec in
    match nucleus with
    | Some _ =>
      let target := GetTarget init_state in
      let bindE := BindEnergyLastNucleon target in
      let v4 := mkTLorentzVector d_zero d_zero d_zero d_zero in
      let p4 := BindinoP4 bindE p in
      let bpdgc := kPdgBindino in
      let bist := kIStStableFinalState in
      Ok (AddParticle bpdgc bist (-1) (-1) (-1) (-1) p4 v4
            (store ipos (SubtractBindingEnergy bindE p) event_rec))
    | None => Ok event_rec
    end
  else Ok event_rec.

(** The loop: [stdhep_iter.Next()] walks the live array, so the particles
    appended on the way are visited too; [ipos] follows the iterator. *)
Fixpoint stdhep_loop (fuel : nat) (ipos : nat) (event_rec : GHepRecord D)
  : outcome (GHepRecord D) :=
  match particles event_rec !! ipos with
  | None => Ok event_rec
  | Some p =>
    match fuel with
    | O => OutOfFuel
    | S fuel' =>
      let* event_rec' := visit ipos p event_rec in
      stdhep_loop fuel' (S ipos) event_rec'
    end
  end.

(** [NucBindEnergyAggregator::ProcessEventRecord].  [fuel] bounds the
    number of particles the model of the loop may visit. *)
Definition ProcessEventRecord (fuel : nat) (event_rec : GHepRecord D)
  : outcome (GHepRecord D) :=
  stdhep_loop fuel 0 event_rec.

End Aggregator.

(** ** The Bardin-Dokuchaeva inverse-muon-decay cross section

    Embedded on the extended reals, which have the logarithm. *)

Module Bardin.
Local Open Scope R_scope.
Local Open Scope dbl_scope.

(** [TMath::Min], [TMath::Log] and [TMath::Power] of ROOT. *)
Definition Min (a b : double) : double := if a <=? b then a else b.
Definition Log (x : double) : double := Dbl.log x.
Definition Power (x : double) (k : Z) : double :=
  match x with
  | Fin a =>
      if bool_decide (k < 0)%Z && Reqb a 0 then PInf else Fin (powerRZ a k)
  | PInf =>
      if bool_decide (k = 0)%Z then Fin 1
      else if bool_decide (k < 0)%Z then Fin 0 else PInf
  | NInf =>
      if bool_decide (k = 0)%Z then Fin 1
      else if bool_decide (k < 0)%Z then Fin 0
      else if Z.even k then PInf else NInf
  | NaN => if bool_decide (k = 0)%Z then Fin 1 else NaN
  end.

(** Conventions/Constants.h is not under the sources: the constants the
    model reads are taken as given finite numbers. *)
Class Constants := {
  kGF_2 : R;
  kElectronMass : R;
  kElectronMass_2 : R;
  kMuonMass_2 : R;
  kPi : R;
  kAem : R
}.

Record Range1D_t : Type := mkRange1D {
  min : double;
  max : double
}.

(** A scalar function ([GSFunc]) with the parameters set on it.
    Modelled from the spec: [SetParam(i, name, range)] of the base class
    GFunc, which is not under the sources, declares the range of the i-th
    free variable by name. *)
Record GSFunc : Type := mkGSFunc {
  call : list double -> double;          (* operator() *)
  fParams : list (string * Range1D_t)
}.

Definition SetParam (i : nat) (name : string) (r : Range1D_t) (f : GSFunc)
  : GSFunc :=
  mkGSFunc (call f)
    (if bool_decide (i < length (fParams f))%nat
     then <[i := (name, r)]> (fParams f)
     else fParams f ++ [(name, r)]).

(** [IntegratorI::Integrate]. *)
Definition IntegratorI : Type := GSFunc -> double.

(** What [Algorithm::SubAlg] can hand back: an integrator or an algorithm
    of another kind; [dynamic_cast<const IntegratorI *>] keeps the first. *)
Inductive Algorithm : Type :=
| IntegratorAlg (integrator : IntegratorI)
| OtherAlg (name : string).

Definition dynamic_cast_IntegratorI (a : option Algorithm) : option IntegratorI :=
  match a with
  | Some (IntegratorAlg i) => Some i
  | _ => None
  end.

(** The [Algorithm] base class (not under the sources): configurations and
    the resolution of a sub-algorithm from two keys of the configuration. *)
Class AlgorithmBase := {
  Registry : Type;
  FindRegistry : string -> Registry;   (* the named parameter set *)
  SubAlg : Registry -> string -> string -> option Algorithm
}.

Section Model.
Context {consts : Constants} {base : AlgorithmBase}.

Record BardinIMDRadCorPXSec : Type := mkBardin {
  fConfig : Registry;
  fIntegrator : option IntegratorI   (* null when [None] *)
}.

(** [BardinIMDRadCorIntegrand::operator()], with [fZ = z].  The function
    is declared of dimension 1 ([GSFunc(1)]); the empty vector, which
    [param[0]] would read past, is given not-a-number. *)
Definition BardinIMDRadCorIntegrand (z : double) (param : list double) : double :=
  match param with
  | [] => NaN
  | t :: _ =>
    if t == Fin 0 then Fin 0
    else if Fin 1 <=? t * z then Fin 0
    else
      let f := Log (Fin 1 - z * t) / t in
      f
  end.

Definition Li2 (self : BardinIMDRadCorPXSec) (z : double) : outcome double :=
  let epsilon := Fin 1e-2 in
  let t := mkRange1D epsilon (Fin 1.0 - epsilon) in
  let func := mkGSFunc (BardinIMDRadCorIntegrand z) [] in
  let func := SetParam 0 "t" t func in
  match fIntegrator self with
  | None => NullDeref
  | Some integrator => let li2 := integrator func in Ok li2
  end.

Definition C (i k : Z) (r : double) : double :=
  if bool_decide (i = 1)%Z then
    if bool_decide (k = -3)%Z then Fin (-0.19444444) * Power r 3
    else if bool_decide (k = -2)%Z then
      (Fin 0.083333333 + Fin 0.29166667 * r) * Power r 2
    else if bool_decide (k = -1)%Z then
      Fin (-0.58333333) * r - Fin 0.5 * Power r 2 - Power r 3 / Fin 6
    else if bool_decide (k = 0)%Z then
      Fin (-1.30555560) + Fin 3.125 * r + Fin 0.375 * Power r 2
    else if bool_decide (k = 1)%Z then Fin (-0.91666667) - Fin 0.25 * r
    else if bool_decide (k = 2)%Z then Fin 0.041666667
    else Fin 0
  else if bool_decide (i = 2)%Z then
    if bool_decide (k = -3)%Z then Fin 0
    else if bool_decide (k = -2)%Z then Fin 0.5 * Power r 2
    else if bool_decide (k = -1)%Z then Fin 0.5 * r - Fin 2 * Power r 2
    else if bool_decide (k = 0)%Z then
      Fin 0.25 - Fin 0.75 * r + Fin 1.5 * Power r 2
    else if bool_decide (k = 1)%Z then Fin 0.5
    else if bool_decide (k = 2)%Z then Fin 0
    else Fin 0
  else if bool_decide (i = 3)%Z then
    if bool_decide (k = -3)%Z then Fin 0.16666667 * Power r 3
    else if bool_decide (k = -2)%Z then Fin 0.25 * Power r 2 * (Fin 1 - r)
    else if bool_decide (k = -1)%Z then r - Fin 0.5 * Power r 2
    else if bool_decide (k = 0)%Z then Fin 0.66666667
    else if bool_decide (k = 1)%Z then Fin 0
    else if bool_decide (k = 2)%Z then Fin 0
    else Fin 0
  else if bool_decide (i = 4)%Z then
    if bool_decide (k = -3)%Z then Fin 0
    else if bool_decide (k = -2)%Z then Power r 2
    else if bool_decide (k = -1)%Z then r * (Fin 1 - Fin 4 * r)
    else if bool_decide (k = 0)%Z then Fin 1.5 * Power r 2
    else if bool_decide (k = 1)%Z then Fin 1
    else if bool_decide (k = 2)%Z then Fin 0
    else Fin 0
  else if bool_decide (i = 5)%Z then
    if bool_decide (k = -3)%Z then Fin 0.16666667 * Power r 3
    else if bool_decide (k = -2)%Z then Fin (-0.25) * Power r 2 * (Fin 1 + r)
    else if bool_decide (k = -1)%Z then Fin 0.5 * r * (Fin 1 + Fin 3 * r)
    else if bool_decide (k = 0)%Z then
      Fin (-1.9166667) + Fin 2.25 * r - Fin 1.5 * Power r 2
    else if bool_decide (k = 1)%Z then Fin (-0.5)
    else if bool_decide (k = 2)%Z then Fin 0
    else Fin 0
  else if bool_decide (i = 6)%Z then
    if bool_decide (k = -3)%Z then Fin 0
    else if bool_decide (k = -2)%Z then Fin 0.16666667 * Power r 2
    else if bool_decide (k = -1)%Z then Fin (-0.25) * r * (r + Fin 0.33333333)
    else if bool_decide (k = 0)%Z then Fin 1.25 * (r + Fin 0.33333333)
    else if bool_decide (k = 1)%Z then Fin 0.5
    else if bool_decide (k = 2)%Z then Fin 0
    else Fin 0
  else Fin 0.

(** [P]: the loop [for (k = kmin; k <= kmax; k++)] over kmin = -3 .. kmax = 2. *)
Definition P (i : Z) (r y : double) : double :=
  let kmin := (-3)%Z in
  let kmax := 2%Z in
  fold_left
    (fun p k =>
       let c := C i k r in
       let yk := Power y k in
       p + c * yk)
    (map (fun j => (kmin + Z.of_nat j)%Z) (seq 0 (Z.to_nat (kmax - kmin + 1))))
    (Fin 0).

(** [Fa]; each [Li2] goes through [fIntegrator]. *)
Definition Fa (self : BardinIMDRadCorPXSec) (re r y : double) : outcome double :=
  let y2 := y * y in
  let rre := r * re in
  let r_y := r / y in
  let y_r := y / r in
  let* Li2_r := Li2 self r in
  let* Li2_y := Li2 self y in
  let* Li2_1 := Li2 self ((r - y) / (Fin 1 - y)) in
  let* Li2_2 := Li2 self ((Fin 1 - r_y) / (Fin 1 - r)) in
  let* Li2_3 := Li2 self ((y - r) / (Fin 1 - r)) in
  let fa :=
    (Fin 1 - r) * (Log (y2 / rre) * Log (Fin 1 - r_y) +
                   Log y_r * Log (Fin 1 - y) -
                   Li2_r +
                   Li2_y +
                   Li2_1 +
                   Fin 1.5 * (Fin 1 - r) * Log (Fin 1 - r))
    +
    Fin 0.5 * (Fin 1 + Fin 3 * r) * (Li2_2 -
                                     Li2_3 -
                                     Log y_r * Log ((y - r) / (Fin 1 - r)))
    +
    P 1 r y -
    P 2 r y * Log r -
    P 3 r y * Log re +
    P 4 r y * Log y +
    P 5 r y * Log (Fin 1 - y) +
    P 6 r y * (Fin 1 - r_y) * Log (Fin 1 - r_y) in
  Ok fa.

Definition ValidProcess (interaction : Interaction double) : bool :=
  if kISkipProcessChk interaction then true
  else true.

Definition ValidKinematics (interaction : Interaction double) : bool :=
  if kISkipKinematicChk interaction then true
  else
    let init_state := GetInitialState interaction in
    let E := GetProbeE init_state in
    let s := Fin kElectronMass_2 + Fin 2 * Fin kElectronMass * E in
    if s <? Fin kMuonMass_2 then false
    else true.

Definition XSec (self : BardinIMDRadCorPXSec) (interaction : Interaction double)
  : outcome double :=
  if negb (ValidProcess interaction) then Ok (Fin 0)
  else if negb (ValidKinematics interaction) then Ok (Fin 0)
  else
    let init_state := GetInitialState interaction in
    let E := GetProbeE init_state in
    let sig0 := Fin kGF_2 * Fin kElectronMass * E / Fin kPi in
    let re := Fin 0.5 * Fin kElectronMass / E in
    let r := (Fin kMuonMass_2 / Fin kElectronMass_2) * re in
    let y := y (GetKinematics interaction) in
    let y := Fin 1 - y in
    let ymin := r + re in
    let ymax := Fin 1 + re + r * re / (Fin 1 + re) in
    let e := Fin 1E-5 in
    let ymax := Min ymax (Fin 1 - e) in
    if (y <? ymin) || (ymax <? y) then Ok (Fin 0)
    else
      let* fa := Fa self re r y in
      let dsig_dy :=
        Fin 2 * sig0 * (Fin 1 - r + (Fin kAem / Fin kPi) * fa) in
      if kIAssumeFreeNucleon interaction then Ok dsig_dy
      else
        let NNucl := TargetZ (GetTarget init_state) in
        let dsig_dy := dsig_dy * Fin (IZR NNucl) in
        Ok dsig_dy.

(** [LoadSubAlg] and the two [Configure] overloads. *)
Definition LoadSubAlg (self : BardinIMDRadCorPXSec) : outcome BardinIMDRadCorPXSec :=
  let self := mkBardin (fConfig self) None in
  let self :=
    mkBardin (fConfig self)
      (dynamic_cast_IntegratorI
         (SubAlg (fConfig self) "integrator-alg-name" "integrator-param-set")) in
  match fIntegrator self with
  | None => AssertFailed
  | Some _ => Ok self
  end.

Definition Configure (config : Registry) (self : BardinIMDRadCorPXSec)
  : outcome BardinIMDRadCorPXSec :=
  let self := mkBardin config (fIntegrator self) in   (* Algorithm::Configure *)
  LoadSubAlg self.

Definition Configure_param_set (param_set : string) (self : BardinIMDRadCorPXSec)
  : outcome BardinIMDRadCorPXSec :=
  let self := mkBardin (FindRegistry param_set) (fIntegrator self) in
  LoadSubAlg self.

(** The window [ymin, ymax] of Bardin's y = El/Ev that [XSec] computes for
    a probe energy, named for the statements about it. *)
Definition AllowedYMin (E : double) : double :=
  let re := Fin 0.5 * Fin kElectronMass / E in
  let r := (Fin kMuonMass_2 / Fin kElectronMass_2) * re in
  r + re.

Definition AllowedYMax (E : double) : double :=
  let re := Fin 0.5 * Fin kElectronMass / E in
  let r := (Fin kMuonMass_2 / Fin kElectronMass_2) * re in
  let ymax := Fin 1 + re + r * re / (Fin 1 + re) in
  let e := Fin 1E-5 in
  Min ymax (Fin 1 - e).

(** What is assumed of Conventions/Constants.h: a positive electron mass,
    its square, a heavier muon, and a positive pi. *)
Definition constants_ok : Prop :=
  (0 < kElectronMass)%R /\
  kElectronMass_2 = (kElectronMass * kElectronMass)%R /\
  (kElectronMass_2 < kMuonMass_2)%R /\
  (0 < kPi)%R.

(** What is assumed of an [IntegratorI]: over a finite range on which the
    integrand takes finite values, the integral is a finite number. *)
Definition finite_integrator (integrator : IntegratorI) : Prop :=
  forall (f : GSFunc) (name : string) (a b : R),
    fParams f = [(name, mkRange1D (Fin a) (Fin b))] ->
    (a <= b)%R ->
    (forall t : R, (a <= t <= b)%R -> exists v : R, call f [Fin t] = Fin v) ->
    exists v : R, integrator f = Fin v.

End Model.
End Bardin.

(** ** The interaction selector

    Only the declaration of [PhysInteractionSelector] is under the sources
    ([SelectInteraction], [fUseSplines]). *)

Module Selector.

(** The process-wide random source: seeded, then drawn from. *)
Class RandomSource (D : Type) := {
  RandomGen : Type;
  SetSeed : Z -> RandomGen;
  Uniform : RandomGen -> D -> D * RandomGen   (* a draw from [0, bound) *)
}.

Section Model.
Context {D : Type} {ops : DoubleOps D} {rnd : RandomSource D}.
Local Open Scope dbl_scope.

(** One entry of the interaction generator map: the channel, the
    interaction its generator proposes for a probe, and the two ways to a
    weight (integrating the model, or the precomputed tabulation). *)
Record Channel : Type := mkChannel {
  channel_id : Z;
  generate : TLorentzVector D -> Interaction D;
  integrate_xsec : TLorentzVector D -> D;
  tabulated_xsec : TLorentzVector D -> D
}.

Definition InteractionGeneratorMap : Type := list Channel.

Definition WeightTable : Type := list (Z * D).

Record EventSeed : Type := mkEventSeed {
  seed_channel : Z;
  seed_interaction : Interaction D;
  seed_probe : TLorentzVector D
}.

Inductive State : Type :=
| Idle
| WeightsComputed (table : WeightTable)
| Selected (seed : EventSeed)
| Failed.

(** Modelled from the spec: step 1 of [SelectInteraction], the weight of
    each channel in the order of the map. *)
Definition ComputeWeights (fUseSplines : bool) (igmp : InteractionGeneratorMap)
    (p4 : TLorentzVector D) : WeightTable :=
  map (fun c =>
         (channel_id c,
          if fUseSplines then tabulated_xsec c p4 else integrate_xsec c p4))
      igmp.

(** Modelled from the spec: step 2, the cumulative sequence W_0 = 0,
    W_i = W_(i-1) + w(c_i), and its last term. *)
Fixpoint Cumulative (W : D) (table : WeightTable) : list D :=
  match table with
  | [] => []
  | (_, w) :: rest => (W + w) :: Cumulative (W + w) rest
  end.

Definition WLast (table : WeightTable) : D :=
  fold_left (fun W cw => W + snd cw) table d_zero.

(** Modelled from the spec: step 4, the first channel whose cumulative
    weight exceeds the draw. *)
Fixpoint SelectChannel (u : D) (W : D) (table : WeightTable) : option Z :=
  match table with
  | [] => None
  | (c, w) :: rest =>
      if u <? W + w then Some c else SelectChannel u (W + w) rest
  end.

Definition FindChannel (c : Z) (igmp : InteractionGeneratorMap) : option Channel :=
  find (fun ch => bool_decide (channel_id ch = c)) igmp.

(** Modelled from the spec: [PhysInteractionSelector::SelectInteraction],
    steps 1 to 5.  The result is the terminal state and the random source
    after the call. *)
Definition SelectInteraction (fUseSplines : bool) (igmp : InteractionGeneratorMap)
    (p4 : TLorentzVector D) (gen : RandomGen) : State * RandomGen :=
  let table := ComputeWeights fUseSplines igmp p4 in
  if WLast table <=? d_zero then (Failed, gen)
  else
    let (u, gen') := Uniform gen (WLast table) in
    match SelectChannel u d_zero table with
    | None => (Failed, gen')
    | Some c =>
        match FindChannel c igmp with
        | None => (Failed, gen')
        | Some ch => (Selected (mkEventSeed c (generate ch p4) p4), gen')
        end
    end.

(** The event seed a terminal state carries, and the channel selected. *)
Definition event_seed (s : State) : option EventSeed :=
  match s with
  | Selected seed => Some seed
  | _ => None
  end.

Definition selected_channel (s : State) : option Z :=
  option_map seed_channel (event_seed s).

End Model.
End Selector.

(** ** What the binding correction is specified to do *)

Section AggregatorSpec.
Context {D : Type} {ops : DoubleOps D} {env : NuclearEnv D}.

(** A mother position is unset or lies inside a record of [n] particles. *)
Definition mother_ok (n : nat) (p : GHepParticle D) : Prop :=
  FirstMother p = (-1)%Z \/ (0 <= FirstMother p < Z.of_nat n)%Z.

Definition well_formed (event_rec : GHepRecord D) : Prop :=
  Forall (mother_ok (length (particles event_rec))) (particles event_rec).

(** Condition (c): the mother is set and is a nucleon target, its mother is
    set and is an ion. *)
Definition from_nucleus (event_rec : GHepRecord D) (p : GHepParticle D) : Prop :=
  exists mother grandmother : GHepParticle D,
    FirstMother p <> (-1)%Z /\
    Particle event_rec (FirstMother p) = Some mother /\
    Status mother = kIstNucleonTarget /\
    FirstMother mother <> (-1)%Z /\
    Particle event_rec (FirstMother mother) = Some grandmother /\
    IsIon (PdgCode grandmother) = true.

(** Conditions (a), (b) and (c) together. *)
Definition bound_nucleon (event_rec : GHepRecord D) (p : GHepParticle D) : Prop :=
  IsNeutronOrProton (PdgCode p) = true /\
  Status p = kIStStableFinalState /\
  from_nucleus event_rec p.

(** The same three conditions as the code tests them at position [ipos]. *)
Definition has_nucleus (event_rec : GHepRecord D) (ipos : nat) : bool :=
  match FindMotherNucleus (Z.of_nat ipos) event_rec with
  | Ok (Some _) => true
  | _ => false
  end.

Definition eligible (event_rec : GHepRecord D) (ipos : nat) (p : GHepParticle D)
  : bool :=
  IsNeutronOrProton (PdgCode p)
  && bool_decide (Status p = kIStStableFinalState)
  && has_nucleus event_rec ipos.

(** The binding energy of the event: that of its target. *)
Definition bindE_of (event_rec : GHepRecord D) : D :=
  BindEnergyLastNucleon (GetTarget (GetInitialState (GetInteraction event_rec))).

(** The particles of the record after the correction, from position [i]
    on, and the BINDINOs appended for them, in order. *)
Fixpoint corrected_from (event_rec : GHepRecord D) (i : nat)
    (l : list (GHepParticle D)) : list (GHepParticle D) :=
  match l with
  | [] => []
  | p :: l' =>
      (if eligible event_rec i p
       then SubtractBindingEnergy (bindE_of event_rec) p else p)
      :: corrected_from event_rec (S i) l'
  end.

Fixpoint bindinos_from (event_rec : GHepRecord D) (i : nat)
    (l : list (GHepParticle D)) : list (GHepParticle D) :=
  match l with
  | [] => []
  | p :: l' =>
      if eligible event_rec i p
      then Bindino (bindE_of event_rec) p :: bindinos_from event_rec (S i) l'
      else bindinos_from event_rec (S i) l'
  end.

Definition ProcessEventRecord_spec (event_rec : GHepRecord D) : GHepRecord D :=
  mkGHepRecord (GetInteraction event_rec)
    (corrected_from event_rec 0 (particles event_rec)
     ++ bindinos_from event_rec 0 (particles event_rec)).

(** How many particles of [l], which starts at position [i], the
    correction applies to; and how many before position [i] of the record. *)
Fixpoint count_eligible_from (event_rec : GHepRecord D) (i : nat)
    (l : list (GHepParticle D)) : nat :=
  match l with
  | [] => 0
  | p :: l' =>
      (if eligible event_rec i p then 1 else 0)
      + count_eligible_from event_rec (S i) l'
  end.

Definition bound_before (event_rec : GHepRecord D) (i : nat) : nat :=
  count_eligible_from event_rec 0 (take i (particles event_rec)).

Definition bound_count (event_rec : GHepRecord D) : nat :=
  count_eligible_from event_rec 0 (particles event_rec).

(** Two particles with the same code, status and mother. *)
Definition same_kind (p q : GHepParticle D) : Prop :=
  PdgCode p = PdgCode q /\ Status p = Status q /\ FirstMother p = FirstMother q.

End AggregatorSpec.

(** ** Totals over a record *)

Section Totals.
Context {D : Type} {ops : DoubleOps D}.
Local Open Scope dbl_scope.

(** The sum of two 4-vectors, and the total 4-momentum of a list of
    particles. *)
Definition add4 (u v : TLorentzVector D) : TLorentzVector D :=
  mkTLorentzVector (vX u + vX v) (vY u + vY v) (vZ u + vZ v) (vT u + vT v).

Definition total_P4 (l : list (GHepParticle D)) : TLorentzVector D :=
  foldr (fun p acc => add4 (P4 p) acc)
    (mkTLorentzVector d_zero d_zero d_zero d_zero) l.

End Totals.

(** A particle whose 4-momentum has finite components. *)
Definition finite_P4 (p : GHepParticle double) : Prop :=
  exists px py pz e : R,
    P4 p = mkTLorentzVector (Fin px) (Fin py) (Fin pz) (Fin e).

(** The real number a finite [double] stands for (0 for the others), and
    the sum of one component over a list of particles. *)
Definition value (x : double) : R :=
  match x with Fin r => r | _ => 0%R end.

Definition rsum (f : GHepParticle double -> double)
    (l : list (GHepParticle double)) : R :=
  foldr (fun p acc => (value (f p) + acc)%R) 0%R l.

(** The interaction with its free-nucleon bit set to [b]. *)
Definition with_free_nucleon {D : Type} (b : bool) (i : Interaction D)
  : Interaction D :=
  mkInteraction (GetInitialState i) (GetKinematics i)
    (kISkipProcessChk i) (kISkipKinematicChk i) b.

(** ** A sample event

    An iron nucleus, the struck proton inside it, and three final-state
    particles: a proton of momentum 0.5 along x, a neutron at rest, and a
    muon.  Masses and energies are binary fractions (15/16, 17/16, 1/128),
    so that they are the same numbers in both embeddings. *)

Module Sample.

Definition is_nucleon_code (c : Z) : bool :=
  bool_decide (c = 2212 \/ c = 2112)%Z.

Definition is_ion_code (c : Z) : bool :=
  bool_decide (1000000000 < c < 1999999999)%Z.

Definition target : Target := mkTarget 26 56.

(** On binary64. *)
Definition env64 : NuclearEnv float := {|
  Mass := fun p => if is_nucleon_code (PdgCode p) then 0.9375%float else 0%float;
  BindEnergyLastNucleon := fun _ => 0.0078125%float;
  IsNeutronOrProton := is_nucleon_code;
  IsIon := is_ion_code;
  kPdgBindino := 2000000101
|}.

Definition origin64 : TLorentzVector float :=
  mkTLorentzVector 0%float 0%float 0%float 0%float.

Definition interaction64 : Interaction float :=
  mkInteraction (mkInitialState target 3%float) (mkKinematics 0.5%float)
    false false false.

Definition nucleus64 : GHepParticle float :=
  mkGHepParticle 1000260560 (kIStOther 0) (-1) (-1) 1 1
    (mkTLorentzVector 0 0 0 52.5)%float origin64.
Definition struck64 : GHepParticle float :=
  mkGHepParticle 2212 kIstNucleonTarget 0 (-1) 2 3
    (mkTLorentzVector 0 0 0 0.9375)%float origin64.
Definition proton64 : GHepParticle float :=
  mkGHepParticle 2212 kIStStableFinalState 1 (-1) (-1) (-1)
    (mkTLorentzVector 0.5 0 0 1.0625)%float origin64.
Definition neutron64 : GHepParticle float :=
  mkGHepParticle 2112 kIStStableFinalState 1 (-1) (-1) (-1)
    (mkTLorentzVector 0 0 0 0.9375)%float origin64.
Definition muon64 : GHepParticle float :=
  mkGHepParticle 13 kIStStableFinalState (-1) (-1) (-1) (-1)
    (mkTLorentzVector 0 0 1 1.25)%float origin64.

Definition event64 : GHepRecord float :=
  mkGHepRecord interaction64 [nucleus64; struck64; proton64; neutron64; muon64].

(** An event in which no nucleon has left the nucleus. *)
Definition unbound64 : GHepRecord float :=
  mkGHepRecord interaction64 [nucleus64; struck64; muon64].

(** An event whose final-state proton names a mother outside the record. *)
Definition dangling64 : GHepRecord float :=
  mkGHepRecord interaction64
    [nucleus64; struck64; muon64;
     mkGHepParticle 2212 kIStStableFinalState 7 (-1) (-1) (-1)
       (mkTLorentzVector 0.5 0 0 1.0625)%float origin64].

(** The same event with the neutron left out: nothing in it is at rest. *)
Definition moving64 : GHepRecord float :=
  mkGHepRecord interaction64 [nucleus64; struck64; proton64; muon64].

(** On the extended reals. *)
Definition envR : NuclearEnv double := {|
  Mass := fun p => if is_nucleon_code (PdgCode p) then Fin 0.9375 else Fin 0;
  BindEnergyLastNucleon := fun _ => Fin 0.0078125;
  IsNeutronOrProton := is_nucleon_code;
  IsIon := is_ion_code;
  kPdgBindino := 2000000101
|}.

Definition originR : TLorentzVector double :=
  mkTLorentzVector (Fin 0) (Fin 0) (Fin 0) (Fin 0).

Definition interactionR : Interaction double :=
  mkInteraction (mkInitialState target (Fin 3)) (mkKinematics (Fin 0.5))
    false false false.

Definition nucleusR : GHepParticle double :=
  mkGHepParticle 1000260560 (kIStOther 0) (-1) (-1) 1 1
    (mkTLorentzVector (Fin 0) (Fin 0) (Fin 0) (Fin 52.5)) originR.
Definition struckR : GHepParticle double :=
  mkGHepParticle 2212 kIstNucleonTarget 0 (-1) 2 3
    (mkTLorentzVector (Fin 0) (Fin 0) (Fin 0) (Fin 0.9375)) originR.
Definition protonR : GHepParticle double :=
  mkGHepParticle 2212 kIStStableFinalState 1 (-1) (-1) (-1)
    (mkTLorentzVector (Fin 0.5) (Fin 0) (Fin 0) (Fin 1.0625)) originR.
Definition neutronR : GHepParticle double :=
  mkGHepParticle 2112 kIStStableFinalState 1 (-1) (-1) (-1)
    (mkTLorentzVector (Fin 0) (Fin 0) (Fin 0) (Fin 0.9375)) originR.
Definition muonR : GHepParticle double :=
  mkGHepParticle 13 kIStStableFinalState (-1) (-1) (-1) (-1)
    (mkTLorentzVector (Fin 0) (Fin 0) (Fin 1) (Fin 1.25)) originR.

Definition eventR : GHepRecord double :=
  mkGHepRecord interactionR [nucleusR; struckR; protonR; neutronR; muonR].

Definition movingR : GHepRecord double :=
  mkGHepRecord interactionR [nucleusR; struckR; protonR; muonR].

(** Constants, an integrator (the midpoint rule) and a registry of
    algorithms for the Bardin model; a muon neutrino of 20 GeV, above the
    threshold of inverse muon decay, at y = 0.5. *)
Definition constants : Bardin.Constants := {|
  Bardin.kGF_2 := 1.16639e-5 * 1.16639e-5;
  Bardin.kElectronMass := 0.000510999;
  Bardin.kElectronMass_2 := 0.000510999 * 0.000510999;
  Bardin.kMuonMass_2 := 0.105658 * 0.105658;
  Bardin.kPi := 3.14159265;
  Bardin.kAem := 1 / 137.036
|}.

Definition midpoint : Bardin.IntegratorI :=
  fun f =>
    match Bardin.fParams f with
    | [(_, r)] =>
        d_mul (d_sub (Bardin.max r) (Bardin.min r))
              (Bardin.call f
                 [d_div (d_add (Bardin.min r) (Bardin.max r)) (Fin 2)])
    | _ => Fin 0
    end.

Fixpoint registry_get (key : string) (config : list (string * string))
  : option string :=
  match config with
  | [] => None
  | (k, v) :: rest => if String.eqb k key then Some v else registry_get key rest
  end.

Definition algorithms : Bardin.AlgorithmBase := {|
  Bardin.Registry := list (string * string);
  Bardin.FindRegistry := fun _ => [];
  Bardin.SubAlg := fun config alg_key _ =>
    match registry_get alg_key config with
    | Some name =>
        if String.eqb name "midpoint" then Some (Bardin.IntegratorAlg midpoint)
        else Some (Bardin.OtherAlg name)
    | None => None
    end
|}.

Definition imd : Bardin.BardinIMDRadCorPXSec (base := algorithms) :=
  Bardin.mkBardin (base := algorithms)
    [("integrator-alg-name"%string, "midpoint"%string)] (Some midpoint).

(** The model as constructed, before any [Configure]: no integrator. *)
Definition unconfigured : Bardin.BardinIMDRadCorPXSec (base := algorithms) :=
  Bardin.mkBardin (base := algorithms) [] None.

Definition numu20 : Interaction double :=
  mkInteraction (mkInitialState target (Fin 20)) (mkKinematics (Fin 0.5))
    false false false.

(** The same neutrino at 5 GeV, below the threshold. *)
Definition numu5 : Interaction double :=
  mkInteraction (mkInitialState target (Fin 5)) (mkKinematics (Fin 0.5))
    false false false.

(** Two channels of weights 3 and 1, two that weigh nothing, and a
    random source (a linear congruential generator) on binary64. *)
Definition lcg_next (st : Z) : Z := ((1103515245 * st + 12345) mod 2147483648)%Z.

Definition lcg64 : Selector.RandomSource float := {|
  Selector.RandomGen := Z;
  Selector.SetSeed := fun seed => (seed mod 2147483648)%Z;
  Selector.Uniform := fun st bound =>
    let st' := lcg_next st in
    (PrimFloat.mul bound
       (PrimFloat.div (PrimFloat.of_uint63 (Uint63.of_Z st')) 2147483648%float),
     st')
|}.

Definition channel64 (id : Z) (integrated tabulated : float)
  : Selector.Channel (D := float) :=
  Selector.mkChannel id (fun _ => interaction64)
    (fun _ => integrated) (fun _ => tabulated).

Definition channels64 : Selector.InteractionGeneratorMap (D := float) :=
  [channel64 1 3%float 3%float; channel64 2 1%float 1%float].

Definition closed64 : Selector.InteractionGeneratorMap (D := float) :=
  [channel64 1 0%float 3%float; channel64 2 0%float 1%float].

Definition probe64 : TLorentzVector float :=
  mkTLorentzVector 0%float 0%float 3%float 3%float.

End Sample.

(** * Properties *)

(** ** The loop of [ProcessEventRecord] *)

Section AggregatorLoop.
Context {D : Type} {ops : DoubleOps D} {env : NuclearEnv D}.
Implicit Types (p q : GHepParticle D) (l : list (GHepParticle D)).
Implicit Types (event_rec : GHepRecord D).

Lemma same_kind_refl p : same_kind p p.
Proof. by repeat split. Qed.

Lemma same_kind_SubtractBindingEnergy (b : D) p :
  same_kind p (SubtractBindingEnergy b p).
Proof. by repeat split. Qed.

Lemma Forall2_same_kind_refl l : Forall2 same_kind l l.
Proof. induction l; constructor; auto using same_kind_refl. Qed.

Lemma Particle_lookup event_rec (i : nat) :
  Particle event_rec (Z.of_nat i) = particles event_rec !! i.
Proof.
  unfold Particle. rewrite bool_decide_eq_false_2 by lia.
  by rewrite Nat2Z.id.
Qed.

(** Inside a well-formed prefix, a lookup in the grown record finds a
    particle of the same kind as the original one. *)
Lemma Particle_same_kind (I I' : Interaction D) l0 l extra (pos : Z) p0 :
  Forall2 same_kind l0 l ->
  Particle (mkGHepRecord I l0) pos = Some p0 ->
  exists p, Particle (mkGHepRecord I' (l ++ extra)) pos = Some p /\ same_kind p0 p.
Proof.
  intros HF. unfold Particle; simpl.
  case_bool_decide; [done|]. intros Hl.
  destruct (Forall2_lookup_l _ _ _ _ _ HF Hl) as (p & Hp & Hk).
  exists p. split; [|done]. by apply lookup_app_l_Some.
Qed.

Lemma mother_ok_Particle (I : Interaction D) l0 p :
  mother_ok (length l0) p -> FirstMother p <> (-1)%Z ->
  exists m, Particle (mkGHepRecord I l0) (FirstMother p) = Some m /\ m ∈ l0.
Proof.
  intros [?|[H0 H1]] Hne; [done|].
  unfold Particle; simpl. rewrite bool_decide_eq_false_2 by lia.
  destruct (lookup_lt_is_Some_2 l0 (Z.to_nat (FirstMother p))) as [m Hm]; [lia|].
  exists m. split; [done|]. by eapply list_elem_of_lookup_2.
Qed.

(** Whether the nucleus is found does not depend on what the loop has
    done so far: it rewrites 4-momenta only, and appends. *)
Lemma FindMotherNucleus_grown (I I' : Interaction D) l0 l extra (i : nat) :
  Forall (mother_ok (length l0)) l0 ->
  Forall2 same_kind l0 l ->
  (i < length l0)%nat ->
  exists o o',
    FindMotherNucleus (Z.of_nat i) (mkGHepRecord I l0) = Ok o /\
    FindMotherNucleus (Z.of_nat i) (mkGHepRecord I' (l ++ extra)) = Ok o' /\
    (is_Some o <-> is_Some o').
Proof.
  intros Hwf HF Hi.
  destruct (lookup_lt_is_Some_2 l0 i Hi) as [p0 Hp0].
  assert (Hin0 : p0 ∈ l0) by (by eapply list_elem_of_lookup_2).
  assert (HP0 : Particle (mkGHepRecord I l0) (Z.of_nat i) = Some p0)
    by (by rewrite Particle_lookup).
  destruct (Particle_same_kind I I' _ _ extra _ _ HF HP0) as (p & HP & Hk).
  unfold FindMotherNucleus. rewrite HP0, HP.
  destruct Hk as (_ & _ & Hm). rewrite <- Hm.
  case_bool_decide as Hmo; [|by exists None, None].
  rewrite Forall_forall in Hwf.
  destruct (mother_ok_Particle I l0 p0 (Hwf _ Hin0) Hmo) as (m0 & Hm0 & Hinm).
  destruct (Particle_same_kind I I' _ _ extra _ _ HF Hm0) as (m & HPm & Hkm).
  rewrite Hm0, HPm.
  destruct Hkm as (_ & Hst & Hmm). rewrite <- Hst, <- Hmm.
  case_bool_decide; [|by exists None, None].
  case_bool_decide as Hgo; [|by exists None, None].
  destruct (mother_ok_Particle I l0 m0 (Hwf _ Hinm) Hgo) as (g0 & Hg0 & _).
  destruct (Particle_same_kind I I' _ _ extra _ _ HF Hg0) as (g & HPg & Hkg).
  rewrite Hg0, HPg.
  destruct Hkg as (Hpdg & _ & _). rewrite <- Hpdg.
  destruct (IsIon (PdgCode g0)).
  - exists (Some g0), (Some g). repeat split; by eauto.
  - by exists None, None.
Qed.

Lemma has_nucleus_grown (I I' : Interaction D) l0 l extra (i : nat) :
  Forall (mother_ok (length l0)) l0 ->
  Forall2 same_kind l0 l ->
  (i < length l0)%nat ->
  exists o',
    FindMotherNucleus (Z.of_nat i) (mkGHepRecord I' (l ++ extra)) = Ok o' /\
    has_nucleus (mkGHepRecord I l0) i = bool_decide (is_Some o').
Proof.
  intros Hwf HF Hi.
  destruct (FindMotherNucleus_grown I I' l0 l extra i Hwf HF Hi)
    as (o & o' & Ho & Ho' & Hiff).
  exists o'. split; [done|].
  unfold has_nucleus. rewrite Ho.
  destruct o, o'; simpl; try done.
  - destruct Hiff as [Hx _]. by destruct Hx as [? ?]; [eauto|].
  - destruct Hiff as [_ Hx]. by destruct Hx as [? ?]; [eauto|].
Qed.

(** The particles appended by the loop have no mother: visiting them
    changes nothing. *)
Lemma stdhep_loop_added (I : Interaction D) added : forall l fuel,
  Forall (fun q => FirstMother q = (-1)%Z) added ->
  (length added <= fuel)%nat ->
  stdhep_loop fuel (length l) (mkGHepRecord I (l ++ added))
  = Ok (mkGHepRecord I (l ++ added)).
Proof.
  induction added as [|a added IH]; intros l fuel Hm Hf.
  - destruct fuel; simpl; rewrite app_nil_r, lookup_ge_None_2; auto.
  - destruct fuel as [|fuel]; [simpl in Hf; lia|].
    inversion Hm as [|? ? Ha Hm']; subst.
    simpl. rewrite list_lookup_middle by done.
    unfold visit.
    assert (Hv : FindMotherNucleus (Z.of_nat (length l))
              (mkGHepRecord I (l ++ a :: added)) = Ok None).
    { unfold FindMotherNucleus. rewrite Particle_lookup. simpl.
      rewrite list_lookup_middle by done. rewrite Ha.
      by rewrite bool_decide_eq_false_2 by (intros ?; done). }
    rewrite Hv. simpl.
    assert (Hl : S (length l) = length (l ++ [a]))
      by (rewrite length_app; simpl; lia).
    replace (l ++ a :: added) with ((l ++ [a]) ++ added)
      by (by rewrite <- app_assoc).
    destruct (_ && _); simpl; rewrite Hl; apply IH; auto; simpl in Hf; lia.
Qed.

(** The loop invariant: with [pre] already visited (now [pre']), [todo]
    ahead and [added] appended so far, the loop ends in the specified
    record. *)
Lemma stdhep_loop_todo (I : Interaction D) (l0 : list (GHepParticle D)) :
  Forall (mother_ok (length l0)) l0 ->
  forall todo pre pre' added fuel,
    l0 = pre ++ todo ->
    Forall2 same_kind pre pre' ->
    Forall (fun q => FirstMother q = (-1)%Z) added ->
    (2 * length todo + length added <= fuel)%nat ->
    stdhep_loop fuel (length pre') (mkGHepRecord I (pre' ++ todo ++ added))
    = Ok (mkGHepRecord I
            (pre' ++ corrected_from (mkGHepRecord I l0) (length pre) todo
                  ++ added
                  ++ bindinos_from (mkGHepRecord I l0) (length pre) todo)).
Proof.
  intros Hwf. induction todo as [|p todo IH]; intros pre pre' added fuel El HF Hm Hf.
  - simpl. rewrite app_nil_r.
    apply stdhep_loop_added; [done | simpl in Hf; lia].
  - destruct fuel as [|fuel]; [simpl in Hf; lia|].
    pose proof (Forall2_length _ _ _ HF) as Hlen.
    simpl. rewrite list_lookup_middle by done.
    assert (HF' : Forall2 same_kind l0 (pre' ++ p :: todo)).
    { rewrite El. apply Forall2_app; [done|apply Forall2_same_kind_refl]. }
    assert (Hi : (length pre' < length l0)%nat).
    { rewrite El, length_app, Hlen. simpl. lia. }
    destruct (has_nucleus_grown I I l0 _ added _ Hwf HF' Hi) as (o' & Ho' & Hh).
    rewrite <- app_assoc in Ho'. simpl in Ho'.
    unfold visit, eligible. rewrite Hlen, Hh.
    assert (Hnext : forall p' added',
      same_kind p p' ->
      Forall (fun q => FirstMother q = (-1)%Z) added' ->
      (2 * length todo + length added' <= fuel)%nat ->
      stdhep_loop fuel (S (length pre'))
        (mkGHepRecord I (pre' ++ p' :: todo ++ added'))
      = Ok (mkGHepRecord I
              (pre' ++ p' :: corrected_from (mkGHepRecord I l0) (S (length pre')) todo
                    ++ added'
                    ++ bindinos_from (mkGHepRecord I l0) (S (length pre')) todo))).
    { intros p' added' Hk Hm' Hf'.
      specialize (IH (pre ++ [p]) (pre' ++ [p']) added' fuel).
      rewrite !length_app, <- !app_assoc in IH. simpl in IH.
      rewrite <- Hlen, Nat.add_1_r in IH. rewrite Hlen in IH.
      apply IH; auto.
      apply Forall2_app; [done|]. by constructor. }
    destruct (IsNeutronOrProton (PdgCode p) &&
              bool_decide (Status p = kIStStableFinalState)) eqn:Hab; simpl.
    + rewrite Ho'. simpl. destruct o' as [g|]; simpl.
      * unfold AddParticle, store; simpl.
        rewrite insert_app_r_alt by lia. rewrite Nat.sub_diag. simpl.
        rewrite <- !app_assoc. simpl. rewrite <- !app_assoc.
        rewrite (Hnext _ (added ++ [_])).
        -- by rewrite <- !app_assoc.
        -- apply same_kind_SubtractBindingEnergy.
        -- apply Forall_app. split; [done|]. by constructor.
        -- rewrite length_app. simpl. simpl in Hf. lia.
      * apply Hnext; auto using same_kind_refl. simpl in Hf. lia.
    + apply Hnext; auto using same_kind_refl. simpl in Hf. lia.
Qed.

(** [ProcessEventRecord] returns, with a step budget of twice the length
    of the record, and what it returns is the specified record. *)
Lemma ProcessEventRecord_correct event_rec fuel :
  well_formed event_rec ->
  (2 * length (particles event_rec) <= fuel)%nat ->
  ProcessEventRecord fuel event_rec = Ok (ProcessEventRecord_spec event_rec).
Proof.
  intros Hwf Hf. destruct event_rec as [I l0]. simpl in *.
  unfold ProcessEventRecord, ProcessEventRecord_spec. simpl.
  pose proof (stdhep_loop_todo I l0 Hwf l0 [] [] [] fuel) as H.
  simpl in H. rewrite app_nil_r in H. apply H; auto. lia.
Qed.

(** *** The specified record, position by position *)

Lemma length_corrected_from event_rec l : forall i,
  length (corrected_from event_rec i l) = length l.
Proof. induction l; intros; simpl; auto. Qed.

Lemma length_bindinos_from event_rec l : forall i,
  length (bindinos_from event_rec i l) = count_eligible_from event_rec i l.
Proof.
  induction l as [|p l IH]; intros i; simpl; [done|].
  destruct (eligible event_rec i p); simpl; by rewrite IH.
Qed.

Lemma corrected_from_lookup event_rec l : forall i j p,
  l !! j = Some p ->
  corrected_from event_rec i l !! j
  = Some (if eligible event_rec (i + j) p
          then SubtractBindingEnergy (bindE_of event_rec) p else p).
Proof.
  induction l as [|a l IH]; intros i j p Hl; [done|].
  destruct j as [|j]; simpl in *.
  - inversion Hl; subst. by rewrite Nat.add_0_r.
  - rewrite (IH (S i) j p Hl). by rewrite Nat.add_succ_r.
Qed.

Lemma bindinos_from_lookup event_rec l : forall i j p,
  l !! j = Some p ->
  eligible event_rec (i + j) p = true ->
  bindinos_from event_rec i l !! count_eligible_from event_rec i (take j l)
  = Some (Bindino (bindE_of event_rec) p).
Proof.
  induction l as [|a l IH]; intros i j p Hl He; [done|].
  destruct j as [|j]; simpl in *.
  - inversion Hl; subst. rewrite Nat.add_0_r in He. by rewrite He.
  - rewrite Nat.add_succ_r in He.
    destruct (eligible event_rec i a); simpl; by apply IH.
Qed.

Lemma count_eligible_from_app event_rec l1 : forall l2 i,
  count_eligible_from event_rec i (l1 ++ l2)
  = (count_eligible_from event_rec i l1
     + count_eligible_from event_rec (i + length l1) l2)%nat.
Proof.
  induction l1 as [|a l1 IH]; intros l2 i; simpl.
  - by rewrite Nat.add_0_r.
  - rewrite IH. rewrite Nat.add_succ_r. simpl. lia.
Qed.

(** Distinct corrected nucleons have distinct BINDINOs. *)
Lemma bound_before_lt event_rec (i j : nat) p :
  particles event_rec !! i = Some p ->
  eligible event_rec i p = true ->
  (i < j)%nat ->
  (bound_before event_rec i < bound_before event_rec j)%nat.
Proof.
  intros Hl He Hij. unfold bound_before.
  assert (Hlen : (i < length (particles event_rec))%nat)
    by (by eapply lookup_lt_Some).
  assert (Et : take j (particles event_rec)
          = take i (particles event_rec) ++ p :: take (j - S i)
                (drop (S i) (particles event_rec))).
  { rewrite <- (take_drop_middle _ _ _ Hl) at 1.
    rewrite take_app_ge by (rewrite length_take; lia).
    rewrite length_take, Nat.min_l by lia.
    replace (j - i)%nat with (S (j - S i)) by lia. done. }
  rewrite Et, count_eligible_from_app. simpl.
  rewrite length_take, Nat.min_l by lia. simpl. rewrite He. lia.
Qed.

Lemma bound_before_lt_count event_rec (i : nat) p :
  particles event_rec !! i = Some p ->
  eligible event_rec i p = true ->
  (bound_before event_rec i < bound_count event_rec)%nat.
Proof.
  intros Hl He. unfold bound_count.
  rewrite <- (take_ge (particles event_rec) (length (particles event_rec))) by lia.
  apply (bound_before_lt event_rec i _ p Hl He).
  by eapply lookup_lt_Some.
Qed.

(** The code's test at a position is conditions (a), (b) and (c). *)
Lemma has_nucleus_from_nucleus event_rec (i : nat) p :
  particles event_rec !! i = Some p ->
  has_nucleus event_rec i = true <-> from_nucleus event_rec p.
Proof.
  intros Hl. unfold has_nucleus, FindMotherNucleus, from_nucleus.
  rewrite Particle_lookup, Hl.
  split.
  - case_bool_decide as H1; [|done].
    destruct (Particle event_rec (FirstMother p)) as [m|] eqn:Hm; [|done].
    case_bool_decide as H2; [|done].
    case_bool_decide as H3; [|done].
    destruct (Particle event_rec (FirstMother m)) as [g|] eqn:Hg; [|done].
    destruct (IsIon (PdgCode g)) eqn:Hion; [|done].
    intros _. by exists m, g.
  - intros (m & g & H1 & Hm & H2 & H3 & Hg & Hion).
    rewrite bool_decide_eq_true_2 by done. rewrite Hm.
    rewrite bool_decide_eq_true_2 by done.
    rewrite bool_decide_eq_true_2 by done. by rewrite Hg, Hion.
Qed.

Lemma eligible_bound_nucleon event_rec (i : nat) p :
  particles event_rec !! i = Some p ->
  eligible event_rec i p = true <-> bound_nucleon event_rec p.
Proof.
  intros Hl. unfold eligible, bound_nucleon.
  rewrite !andb_true_iff, bool_decide_eq_true.
  rewrite (has_nucleus_from_nucleus _ _ _ Hl). tauto.
Qed.

End AggregatorLoop.

(** ** Arithmetic on the extended reals *)

Section IdealArithmetic.
Local Open Scope R_scope.

Lemma Rsign_pos a : 0 < a -> Rsign a = Gt.
Proof.
  intros H. unfold Rsign. destruct (total_order_T a 0) as [[?|?]|?]; auto; lra.
Qed.

Lemma Rsign_neg a : a < 0 -> Rsign a = Lt.
Proof.
  intros H. unfold Rsign. destruct (total_order_T a 0) as [[?|?]|?]; auto; lra.
Qed.

Lemma Rsign_zero : Rsign 0 = Eq.
Proof.
  unfold Rsign. destruct (total_order_T 0 0) as [[?|?]|?]; auto; lra.
Qed.

Lemma Rsign_nonzero a : a <> 0 -> Rsign a <> Eq.
Proof.
  intros H. unfold Rsign. destruct (total_order_T a 0) as [[?|?]|?]; auto; lra.
Qed.

Lemma Rltb_true a b : a < b -> Rltb a b = true.
Proof. intros. unfold Rltb. destruct (Rlt_dec a b); auto; lra. Qed.

Lemma Rltb_false a b : b <= a -> Rltb a b = false.
Proof. intros. unfold Rltb. destruct (Rlt_dec a b); auto; lra. Qed.

Lemma Rleb_true a b : a <= b -> Rleb a b = true.
Proof. intros. unfold Rleb. destruct (Rle_dec a b); auto; lra. Qed.

Lemma Rleb_false a b : b < a -> Rleb a b = false.
Proof. intros. unfold Rleb. destruct (Rle_dec a b); auto; lra. Qed.

Lemma Reqb_true a : Reqb a a = true.
Proof. unfold Reqb. destruct (Req_dec_T a a); auto; lra. Qed.

Lemma Reqb_false a b : a <> b -> Reqb a b = false.
Proof. intros. unfold Reqb. destruct (Req_dec_T a b); auto; lra. Qed.

Lemma add_fin a b : d_add (Fin a) (Fin b) = Fin (a + b).
Proof. reflexivity. Qed.

Lemma sub_fin a b : d_sub (Fin a) (Fin b) = Fin (a - b).
Proof. reflexivity. Qed.

Lemma mul_fin a b : d_mul (Fin a) (Fin b) = Fin (a * b).
Proof. reflexivity. Qed.

Lemma div_fin a b : b <> 0 -> d_div (Fin a) (Fin b) = Fin (a / b).
Proof.
  intros H. simpl. pose proof (Rsign_nonzero b H). by destruct (Rsign b).
Qed.

(** Dividing by zero: an infinity, or not-a-number for 0/0. *)
Lemma div_by_zero a : 0 <= a ->
  d_div (Fin a) (Fin 0) = PInf \/ d_div (Fin a) (Fin 0) = NaN.
Proof.
  intros [H|H]; simpl; rewrite Rsign_zero.
  - left. by rewrite Rsign_pos.
  - right. subst. by rewrite Rsign_zero.
Qed.

Lemma sqrt_fin a : 0 <= a -> d_sqrt (Fin a) = Fin (sqrt a).
Proof.
  intros [H|H]; simpl.
  - by rewrite Rsign_pos.
  - subst. by rewrite Rsign_zero.
Qed.

Lemma log_fin a : 0 < a -> Dbl.log (Fin a) = Fin (ln a).
Proof. intros H. simpl. by rewrite Rsign_pos. Qed.

Lemma NonNegative_fin x : NonNegative (Fin x) = Fin (Rmax 0 x).
Proof.
  unfold NonNegative, Rmax. simpl. unfold Rleb.
  destruct (Rle_dec x 0), (Rle_dec 0 x); try reflexivity; try lra.
  f_equal; lra.
Qed.

(** Not-a-number and the infinities times zero. *)
Lemma mul_nonfinite_zero x :
  x = PInf \/ x = NInf \/ x = NaN -> d_mul x (Fin 0) = NaN.
Proof. intros [-> | [-> | ->]]; simpl; by rewrite ?Rsign_zero. Qed.

Lemma sub_one_nonfinite x :
  x = PInf \/ x = NaN ->
  d_sub (Fin 1) x = NInf \/ d_sub (Fin 1) x = NaN.
Proof. intros [-> | ->]; simpl; auto. Qed.

End IdealArithmetic.

(** ** The correction of one nucleon, on the extended reals *)

Section NucleonIdeal.
Context {env : NuclearEnv double}.
Local Open Scope R_scope.
Implicit Types (p : GHepParticle double).

Lemma sum_squares_nonneg (px py pz : R) : 0 <= px * px + py * py + pz * pz.
Proof. nra. Qed.

Lemma P_fin (px py pz e : R) :
  P (mkTLorentzVector (Fin px) (Fin py) (Fin pz) (Fin e))
  = Fin (sqrt (px * px + py * py + pz * pz)).
Proof.
  unfold P. cbn [vX vY vZ]. rewrite !mul_fin, !add_fin.
  apply sqrt_fin, sum_squares_nonneg.
Qed.

Lemma pmag_new_fin p (e m b : R) :
  Energy p = Fin e -> Mass p = Fin m ->
  d_sqrt (NonNegative
            (d_sub (d_mul (d_sub (Energy p) (Fin b)) (d_sub (Energy p) (Fin b)))
                   (d_mul (Mass p) (Mass p))))
  = Fin (sqrt (Rmax 0 ((e - b) * (e - b) - m * m))).
Proof.
  intros -> ->. rewrite !sub_fin, !mul_fin, sub_fin, NonNegative_fin.
  apply sqrt_fin, Rmax_l.
Qed.

(** With momentum, the scale is the ratio of the two magnitudes. *)
Lemma scale_of_moving p (px py pz e m b : R) :
  P4 p = mkTLorentzVector (Fin px) (Fin py) (Fin pz) (Fin e) ->
  Mass p = Fin m ->
  0 < sqrt (px * px + py * py + pz * pz) ->
  scale_of (Fin b) p
  = Fin (sqrt (Rmax 0 ((e - b) * (e - b) - m * m))
         / sqrt (px * px + py * py + pz * pz)).
Proof.
  intros HP HM Hp. unfold scale_of.
  rewrite (pmag_new_fin p e m b); [| by unfold Energy; rewrite HP | done].
  rewrite HP, P_fin. apply div_fin. lra.
Qed.

(** At rest, it is the quotient of a division by zero. *)
Lemma scale_of_at_rest p (px py pz e m b : R) :
  P4 p = mkTLorentzVector (Fin px) (Fin py) (Fin pz) (Fin e) ->
  Mass p = Fin m ->
  sqrt (px * px + py * py + pz * pz) = 0 ->
  scale_of (Fin b) p = PInf \/ scale_of (Fin b) p = NaN.
Proof.
  intros HP HM Hp. unfold scale_of.
  rewrite (pmag_new_fin p e m b); [| by unfold Energy; rewrite HP | done].
  rewrite HP, P_fin, Hp. apply div_by_zero, sqrt_pos.
Qed.

Lemma at_rest_components (px py pz : R) :
  sqrt (px * px + py * py + pz * pz) = 0 -> px = 0 /\ py = 0 /\ pz = 0.
Proof.
  intros H. apply sqrt_eq_0 in H; [|apply sum_squares_nonneg].
  repeat split; nra.
Qed.

Lemma SubtractBindingEnergy_P4 (b : double) p :
  P4 (SubtractBindingEnergy b p)
  = mkTLorentzVector (d_mul (scale_of b p) (Px p)) (d_mul (scale_of b p) (Py p))
      (d_mul (scale_of b p) (Pz p)) (d_sub (Energy p) b).
Proof. reflexivity. Qed.

Lemma SubtractBindingEnergy_moving p (px py pz e m b : R) :
  P4 p = mkTLorentzVector (Fin px) (Fin py) (Fin pz) (Fin e) ->
  Mass p = Fin m ->
  0 < sqrt (px * px + py * py + pz * pz) ->
  let s := sqrt (Rmax 0 ((e - b) * (e - b) - m * m))
           / sqrt (px * px + py * py + pz * pz) in
  P4 (SubtractBindingEnergy (Fin b) p)
  = mkTLorentzVector (Fin (s * px)) (Fin (s * py)) (Fin (s * pz)) (Fin (e - b)) /\
  BindinoP4 (Fin b) p
  = mkTLorentzVector (Fin ((1 - s) * px)) (Fin ((1 - s) * py))
      (Fin ((1 - s) * pz)) (Fin b).
Proof.
  intros HP HM Hp s.
  rewrite SubtractBindingEnergy_P4. unfold BindinoP4.
  rewrite (scale_of_moving p px py pz e m b HP HM Hp).
  unfold Px, Py, Pz, Energy. rewrite HP. cbn [vX vY vZ vT].
  by rewrite !sub_fin, !mul_fin.
Qed.

Lemma SubtractBindingEnergy_at_rest p (px py pz e m b : R) :
  P4 p = mkTLorentzVector (Fin px) (Fin py) (Fin pz) (Fin e) ->
  Mass p = Fin m ->
  sqrt (px * px + py * py + pz * pz) = 0 ->
  P4 (SubtractBindingEnergy (Fin b) p)
  = mkTLorentzVector NaN NaN NaN (Fin (e - b)) /\
  BindinoP4 (Fin b) p = mkTLorentzVector NaN NaN NaN (Fin b).
Proof.
  intros HP HM Hp.
  pose proof (scale_of_at_rest p px py pz e m b HP HM Hp) as Hs.
  destruct (at_rest_components px py pz Hp) as (-> & -> & ->).
  rewrite SubtractBindingEnergy_P4. unfold BindinoP4.
  unfold Px, Py, Pz, Energy. rewrite HP. cbn [vX vY vZ vT].
  rewrite sub_fin.
  rewrite (mul_nonfinite_zero (scale_of (Fin b) p)) by tauto.
  pose proof (sub_one_nonfinite _ Hs) as Hs1.
  change d_one with (Fin 1).
  by rewrite (mul_nonfinite_zero (d_sub (Fin 1) (scale_of (Fin b) p))) by tauto.
Qed.

(** For a nucleon with momentum, nucleon and BINDINO together carry the
    4-momentum the nucleon had. *)
Lemma binding_conservation_moving p (px py pz e m b : R) :
  P4 p = mkTLorentzVector (Fin px) (Fin py) (Fin pz) (Fin e) ->
  Mass p = Fin m ->
  0 < sqrt (px * px + py * py + pz * pz) ->
  let q := SubtractBindingEnergy (Fin b) p in
  let bq := BindinoP4 (Fin b) p in
  d_add (Energy q) (Fin b) = Fin e /\
  d_add (Px q) (vX bq) = Fin px /\
  d_add (Py q) (vY bq) = Fin py /\
  d_add (Pz q) (vZ bq) = Fin pz.
Proof.
  intros HP HM Hp q bq.
  destruct (SubtractBindingEnergy_moving p px py pz e m b HP HM Hp) as [Hq Hb].
  unfold q, bq, Energy, Px, Py, Pz. rewrite Hq, Hb. cbn [vX vY vZ vT].
  rewrite !add_fin. repeat split; f_equal; ring.
Qed.

End NucleonIdeal.

(** ** The binding correction on a whole record *)

Section AggregatorRun.
Context {D : Type} {ops : DoubleOps D} {env : NuclearEnv D}.
Implicit Types (p q : GHepParticle D) (event_rec : GHepRecord D).
Local Open Scope dbl_scope.

Lemma ProcessEventRecord_spec_lookup event_rec (i : nat) p :
  particles event_rec !! i = Some p ->
  particles (ProcessEventRecord_spec event_rec) !! i
  = Some (if eligible event_rec i p
          then SubtractBindingEnergy (bindE_of event_rec) p else p).
Proof.
  intros Hl. simpl. rewrite lookup_app_l.
  - by rewrite (corrected_from_lookup _ _ 0 i p Hl).
  - rewrite length_corrected_from. by eapply lookup_lt_Some.
Qed.

Lemma ProcessEventRecord_spec_bindino event_rec (k : nat) :
  particles (ProcessEventRecord_spec event_rec)
    !! (length (particles event_rec) + k)%nat
  = bindinos_from event_rec 0 (particles event_rec) !! k.
Proof.
  simpl. rewrite lookup_app_r; rewrite length_corrected_from; [|lia].
  f_equal. lia.
Qed.

Lemma bindinos_from_inv event_rec l : forall i k bq,
  bindinos_from event_rec i l !! k = Some bq ->
  exists j p,
    l !! j = Some p /\ eligible event_rec (i + j) p = true /\
    k = count_eligible_from event_rec i (take j l) /\
    bq = Bindino (bindE_of event_rec) p.
Proof.
  induction l as [|a l IH]; intros i k bq Hk; [done|].
  simpl in Hk. destruct (eligible event_rec i a) eqn:He.
  - destruct k as [|k]; simpl in Hk.
    + inversion Hk; subst. exists 0%nat, a.
      rewrite Nat.add_0_r. by repeat split.
    + destruct (IH (S i) k bq Hk) as (j & p & Hl & Hel & Hc & Hb).
      exists (S j), p. rewrite Nat.add_succ_r. simpl. rewrite He.
      repeat split; auto.
  - destruct (IH (S i) k bq Hk) as (j & p & Hl & Hel & Hc & Hb).
    exists (S j), p. rewrite Nat.add_succ_r. simpl. rewrite He.
    repeat split; auto.
Qed.


(** C2: for a nucleon the correction applies to, the new energy is E minus
    the binding energy of the target, the momentum is multiplied by
    scale = sqrt(max(0, E'^2 - m^2)) / |p_old|, and one BINDINO is appended
    for it, with momentum (1 - scale) p_old and the binding energy as its
    energy. *)
Theorem binding_correction_formula event_rec (fuel i : nat) p :
  well_formed event_rec ->
  (2 * length (particles event_rec) <= fuel)%nat ->
  particles event_rec !! i = Some p ->
  bound_nucleon event_rec p ->
  let bindE :=
    BindEnergyLastNucleon
      (GetTarget (GetInitialState (GetInteraction event_rec))) in
  let En := Energy p - bindE in
  let scale := d_sqrt (NonNegative (En * En - Mass p * Mass p)) / P (P4 p) in
  exists event_rec' q bq,
    ProcessEventRecord fuel event_rec = Ok event_rec' /\
    particles event_rec' !! i = Some q /\
    P4 q = mkTLorentzVector (scale * Px p) (scale * Py p) (scale * Pz p) En /\
    particles event_rec'
      !! (length (particles event_rec) + bound_before event_rec i)%nat
    = Some bq /\
    PdgCode bq = kPdgBindino /\
    P4 bq = mkTLorentzVector ((d_one - scale) * Px p) ((d_one - scale) * Py p)
              ((d_one - scale) * Pz p) bindE /\
    length (particles event_rec')
    = (length (particles event_rec) + bound_count event_rec)%nat /\
    forall (j : nat) p',
      particles event_rec !! j = Some p' -> bound_nucleon event_rec p' ->
      i <> j -> bound_before event_rec i <> bound_before event_rec j.
Proof.
  intros Hwf Hf Hl Hb bindE En scale.
  pose proof (proj2 (eligible_bound_nucleon event_rec i p Hl) Hb) as He.
  exists (ProcessEventRecord_spec event_rec),
         (SubtractBindingEnergy (bindE_of event_rec) p),
         (Bindino (bindE_of event_rec) p).
  split; [by apply ProcessEventRecord_correct|].
  split; [by rewrite (ProcessEventRecord_spec_lookup _ _ _ Hl), He|].
  split; [reflexivity|].
  split.
  { rewrite ProcessEventRecord_spec_bindino.
    apply (bindinos_from_lookup event_rec _ 0 i p Hl He). }
  split; [reflexivity|]. split; [reflexivity|].
  split.
  { simpl. by rewrite length_app, length_corrected_from, length_bindinos_from. }
  intros j p' Hl' Hb' Hij.
  pose proof (proj2 (eligible_bound_nucleon event_rec j p' Hl') Hb') as He'.
  destruct (Nat.lt_total i j) as [Hlt|[Heq|Hlt]]; [|done|].
  - pose proof (bound_before_lt event_rec i j p Hl He Hlt). lia.
  - pose proof (bound_before_lt event_rec j i p' Hl' He' Hlt). lia.
Qed.

End AggregatorRun.

(** ** The sample event *)

Lemma event64_well_formed : well_formed Sample.event64.
Proof.
  unfold well_formed. simpl.
  repeat (apply Forall_cons_2; [solve [by left | right; simpl; lia]|]).
  apply Forall_nil_2.
Qed.

Lemma eventR_well_formed : well_formed Sample.eventR.
Proof.
  unfold well_formed. simpl.
  repeat (apply Forall_cons_2; [solve [by left | right; simpl; lia]|]).
  apply Forall_nil_2.
Qed.

Lemma proton64_bound :
  bound_nucleon (env := Sample.env64) Sample.event64 Sample.proton64.
Proof.
  split; [reflexivity|]. split; [reflexivity|].
  exists Sample.struck64, Sample.nucleus64. by repeat split.
Qed.

Lemma protonR_bound :
  bound_nucleon (env := Sample.envR) Sample.eventR Sample.protonR.
Proof.
  split; [reflexivity|]. split; [reflexivity|].
  exists Sample.struckR, Sample.nucleusR. by repeat split.
Qed.

Lemma neutronR_bound :
  bound_nucleon (env := Sample.envR) Sample.eventR Sample.neutronR.
Proof.
  split; [reflexivity|]. split; [reflexivity|].
  exists Sample.struckR, Sample.nucleusR. by repeat split.
Qed.


Lemma binding_correction_formula_witness :
  exists event_rec' q bq,
    ProcessEventRecord (env := Sample.env64) 10 Sample.event64 = Ok event_rec' /\
    particles event_rec' !! 2%nat = Some q /\
    particles event_rec' !! 5%nat = Some bq /\
    Energy q = 1.0546875%float /\
    vT (P4 bq) = 0.0078125%float /\
    length (particles event_rec') = 7%nat.
Proof.
  destruct (binding_correction_formula (env := Sample.env64)
              Sample.event64 10 2 Sample.proton64)
    as (event_rec' & q & bq & Hrun & Hq & HP4q & Hbq & _ & HP4bq & Hlen & _).
  - exact event64_well_formed.
  - simpl. lia.
  - reflexivity.
  - exact proton64_bound.
  - exists event_rec', q, bq. repeat split; auto.
    + unfold Energy. rewrite HP4q. reflexivity.
    + rewrite HP4bq. reflexivity.
Defined.

(** ** The correction on the extended reals *)

Section AggregatorIdeal.
Context {env : NuclearEnv double}.
Implicit Types (p q : GHepParticle double) (event_rec : GHepRecord double).
Local Open Scope R_scope.


Lemma M2_fin (x y z t : R) :
  M2 (mkTLorentzVector (Fin x) (Fin y) (Fin z) (Fin t))
  = Fin (t * t - (x * x + y * y + z * z)).
Proof. reflexivity. Qed.


End AggregatorIdeal.



(** ** The sample event on binary64 *)

(** C1, at a nucleon at rest: on the sample event the neutron (position 3)
    is a bound nucleon with zero momentum.  After the correction its
    energy and that of its BINDINO (position 6) add up to the original
    energy, but its momentum is not-a-number, and the x components of
    nucleon and BINDINO do not add up to the original one. *)
Lemma at_rest_momentum_not_conserved :
  exists event_rec' q bq,
    ProcessEventRecord (env := Sample.env64) 10 Sample.event64 = Ok event_rec' /\
    particles event_rec' !! 3%nat = Some q /\
    particles event_rec' !! 6%nat = Some bq /\
    PdgCode bq = 2000000101%Z /\
    d_eqb (d_add (Energy q) (vT (P4 bq))) (Energy Sample.neutron64) = true /\
    PrimFloat.is_nan (Px q) = true /\
    PrimFloat.is_nan (vX (P4 bq)) = true /\
    d_eqb (d_add (Px q) (vX (P4 bq))) (Px Sample.neutron64) = false.
Proof.
  eexists _, _, _.
  split; [vm_compute; reflexivity|].
  split; [vm_compute; reflexivity|].
  split; [vm_compute; reflexivity|].
  repeat split; vm_compute; reflexivity.
Qed.

(** On the same event the proton (position 2) has momentum, and energy and
    momentum are conserved to the last bit. *)
Lemma moving_momentum_conserved :
  exists event_rec' q bq,
    ProcessEventRecord (env := Sample.env64) 10 Sample.event64 = Ok event_rec' /\
    particles event_rec' !! 2%nat = Some q /\
    particles event_rec' !! 5%nat = Some bq /\
    d_eqb (d_add (Energy q) (vT (P4 bq))) (Energy Sample.proton64) = true /\
    d_eqb (d_add (Px q) (vX (P4 bq))) (Px Sample.proton64) = true.
Proof.
  eexists _, _, _.
  split; [vm_compute; reflexivity|].
  split; [vm_compute; reflexivity|].
  split; [vm_compute; reflexivity|].
  repeat split; vm_compute; reflexivity.
Qed.


(** ** The Bardin cross section *)

Section BardinProps.
Import Bardin.
Context {consts : Constants} {base : AlgorithmBase}.
Local Open Scope R_scope.

Lemma Li2_bound self (ig : IntegratorI) (z : double) :
  fIntegrator self = Some ig ->
  Li2 self z
  = Ok (ig (mkGSFunc (BardinIMDRadCorIntegrand z)
              [("t"%string, mkRange1D (Fin 1e-2) (Fin (1.0 - 1e-2)))])).
Proof. intros H. unfold Li2. by rewrite H. Qed.

Lemma Fa_bound self (ig : IntegratorI) (re r yb : double) :
  fIntegrator self = Some ig -> exists fa, Fa self re r yb = Ok fa.
Proof.
  intros H. unfold Fa. rewrite !(Li2_bound self ig) by done.
  cbn [bind]. by eexists.
Qed.

(** With an integrator bound, [XSec] returns a value. *)
Lemma XSec_bound self (ig : IntegratorI) (interaction : Interaction double) :
  fIntegrator self = Some ig -> exists v, XSec self interaction = Ok v.
Proof.
  intros H. unfold XSec.
  destruct (negb (ValidProcess interaction)); [by eexists|].
  destruct (negb (ValidKinematics interaction)); [by eexists|].
  match goal with |- context [if ?c then Ok (Fin 0) else _] => destruct c end;
    [by eexists|].
  match goal with |- context [Fa ?s ?a ?b ?c] =>
    destruct (Fa_bound s ig a b c H) as [fa ->] end.
  cbn [bind]. destruct (kIAssumeFreeNucleon interaction); by eexists.
Qed.

(** C9: when the configuration names no integrator (nothing resolved, or
    an algorithm of another kind), both [Configure] overloads stop at the
    assertion of [LoadSubAlg]; when [Configure] completes, the integrator
    is bound and no later [XSec] dereferences a null integrator. *)
Theorem missing_integrator_fails_at_configure
    (self : BardinIMDRadCorPXSec) (config : Registry) (param_set : string) :
  (dynamic_cast_IntegratorI
     (SubAlg config "integrator-alg-name" "integrator-param-set") = None ->
   Configure config self = AssertFailed) /\
  (dynamic_cast_IntegratorI
     (SubAlg (FindRegistry param_set)
        "integrator-alg-name" "integrator-param-set") = None ->
   Configure_param_set param_set self = AssertFailed) /\
  (forall self',
     Configure config self = Ok self'
     \/ Configure_param_set param_set self = Ok self' ->
     (exists ig, fIntegrator self' = Some ig) /\
     forall interaction, exists v, XSec self' interaction = Ok v).
Proof.
  split; [|split].
  - intros H. unfold Configure, LoadSubAlg. cbn [fConfig fIntegrator].
    by rewrite H.
  - intros H. unfold Configure_param_set, LoadSubAlg. cbn [fConfig fIntegrator].
    by rewrite H.
  - intros self' H.
    assert (Hig : exists ig, fIntegrator self' = Some ig).
    { destruct H as [H|H];
        unfold Configure, Configure_param_set, LoadSubAlg in H;
        cbn [fConfig fIntegrator] in H;
        match type of H with
        | context [dynamic_cast_IntegratorI ?a] =>
            destruct (dynamic_cast_IntegratorI a) as [ig|] eqn:Hd
        end; try discriminate; inversion H; subst; by exists ig. }
    split; [exact Hig|]. destruct Hig as [ig Hig].
    intros interaction. by apply (XSec_bound self' ig).
Qed.

(** The comparisons of [XSec] on finite numbers. *)
Lemma ltb_fin a b : d_ltb (Fin a) (Fin b) = Rltb a b.
Proof. reflexivity. Qed.

Lemma leb_fin a b : d_leb (Fin a) (Fin b) = Rleb a b.
Proof. reflexivity. Qed.

Lemma Min_fin a b : Min (Fin a) (Fin b) = Fin (Rmin a b).
Proof.
  unfold Min, Rmin. rewrite leb_fin. unfold Rleb.
  by destruct (Rle_dec a b).
Qed.

Lemma re_r_fin (Ev : R) :
  constants_ok -> 0 < Ev ->
  let re := 0.5 * kElectronMass / Ev in
  let r := kMuonMass_2 / kElectronMass_2 * re in
  d_div (d_mul (Fin 0.5) (Fin kElectronMass)) (Fin Ev) = Fin re /\
  d_mul (d_div (Fin kMuonMass_2) (Fin kElectronMass_2))
        (d_div (d_mul (Fin 0.5) (Fin kElectronMass)) (Fin Ev)) = Fin r /\
  0 < re /\ 0 < r /\
  r * (2 * kElectronMass * Ev) = kMuonMass_2.
Proof.
  intros (Hme & Hme2 & Hmu & _) HE re r.
  assert (H2 : 0 < kElectronMass_2) by (rewrite Hme2; nra).
  rewrite mul_fin, div_fin by lra. fold re.
  rewrite div_fin by lra. rewrite mul_fin. fold r.
  assert (Hre : 0 < re).
  { unfold re. apply Rdiv_lt_0_compat; lra. }
  assert (Hq : 0 < kMuonMass_2 / kElectronMass_2).
  { apply Rdiv_lt_0_compat; lra. }
  assert (Hr : 0 < r) by (unfold r; nra).
  repeat split; auto.
  unfold r, re. rewrite Hme2.
  replace 0.5 with (/ 2) by lra. field. lra.
Qed.

Lemma XSec_outside_window self (interaction : Interaction double) :
  let E := GetProbeE (GetInitialState interaction) in
  let yB := d_sub (Fin 1) (y (GetKinematics interaction)) in
  d_ltb yB (AllowedYMin E) = true \/ d_ltb (AllowedYMax E) yB = true ->
  XSec self interaction = Ok (Fin 0).
Proof.
  intros E yB H. unfold XSec.
  destruct (negb (ValidProcess interaction)); [done|].
  destruct (negb (ValidKinematics interaction)); [done|].
  fold E. fold yB. unfold AllowedYMin, AllowedYMax in H.
  destruct H as [H|H]; rewrite H; by rewrite ?orb_true_r.
Qed.

(** Below threshold and with a positive energy the window is empty: its
    lower end is above 1, its upper end below. *)
Lemma below_threshold_window (Ev yb : R) :
  constants_ok -> 0 < Ev ->
  kElectronMass_2 + 2 * kElectronMass * Ev < kMuonMass_2 ->
  d_ltb (Fin yb) (AllowedYMin (Fin Ev)) = true
  \/ d_ltb (AllowedYMax (Fin Ev)) (Fin yb) = true.
Proof.
  intros Hc HE Hs.
  destruct (re_r_fin Ev Hc HE) as (Hre & Hr & Hre0 & Hr0 & Hrm).
  destruct Hc as (Hme & Hme2 & Hmu & _).
  set (re := 0.5 * kElectronMass / Ev) in *.
  set (r := kMuonMass_2 / kElectronMass_2 * re) in *.
  assert (H2 : 0 < kElectronMass_2) by (rewrite Hme2; nra).
  assert (Hr1 : 1 < r) by nra.
  unfold AllowedYMin, AllowedYMax. rewrite Hr, Hre.
  rewrite !add_fin, mul_fin, div_fin by lra.
  rewrite add_fin, sub_fin, Min_fin, !ltb_fin.
  destruct (Rlt_dec yb (r + re)) as [Hlt|Hge].
  - left. by apply Rltb_true.
  - right. apply Rltb_true.
    eapply Rle_lt_trans; [apply Rmin_r|]. lra.
Qed.

(** C4: [XSec] returns 0, and nothing else happens, when [ValidProcess]
    or [ValidKinematics] is false, when the probe energy is below the
    threshold s < m_mu^2 (with the kinematic check on, or skipped), and
    when y lies outside the window [ymin, ymax]; this with or without an
    integrator bound. *)
Theorem forbidden_kinematics_zero self (interaction : Interaction double) :
  constants_ok ->
  let E := GetProbeE (GetInitialState interaction) in
  let yB := d_sub (Fin 1) (y (GetKinematics interaction)) in
  (ValidProcess interaction = false \/ ValidKinematics interaction = false ->
   XSec self interaction = Ok (Fin 0)) /\
  (kISkipKinematicChk interaction = false ->
   d_ltb (d_add (Fin kElectronMass_2) (d_mul (d_mul (Fin 2) (Fin kElectronMass)) E))
         (Fin kMuonMass_2) = true ->
   XSec self interaction = Ok (Fin 0)) /\
  (forall Ev yv : R,
     E = Fin Ev -> y (GetKinematics interaction) = Fin yv ->
     0 < Ev ->
     kElectronMass_2 + 2 * kElectronMass * Ev < kMuonMass_2 ->
     XSec self interaction = Ok (Fin 0)) /\
  (d_ltb yB (AllowedYMin E) = true \/ d_ltb (AllowedYMax E) yB = true ->
   XSec self interaction = Ok (Fin 0)).
Proof.
  intros Hc E yB. split; [|split; [|split]].
  - intros [H|H]; unfold XSec; rewrite H; simpl; [done|].
    by destruct (negb (ValidProcess interaction)).
  - intros Hskip Hs. unfold XSec.
    destruct (negb (ValidProcess interaction)); [done|].
    unfold ValidKinematics. rewrite Hskip. fold E. by rewrite Hs.
  - intros Ev yv HE Hy HEv Hs.
    apply XSec_outside_window. fold E. rewrite HE, Hy, sub_fin.
    by apply below_threshold_window.
  - apply XSec_outside_window.
Qed.

(** *** No singular expression is evaluated *)

Lemma Log_fin a : 0 < a -> Log (Fin a) = Fin (ln a).
Proof. apply log_fin. Qed.

Lemma Power_fin a (k : Z) :
  a <> 0 \/ (0 <= k)%Z -> Power (Fin a) k = Fin (powerRZ a k).
Proof.
  intros H. unfold Power. case_bool_decide as Hk; simpl; [|done].
  destruct H as [H|H]; [|lia]. by rewrite Reqb_false.
Qed.

(** The integrand: 0 at t = 0 and where t z >= 1; elsewhere the logarithm
    has a positive argument and the quotient a divisor other than 0. *)
Lemma integrand_guarded (z t : R) :
  (t = 0 \/ 1 <= t * z -> BardinIMDRadCorIntegrand (Fin z) [Fin t] = Fin 0) /\
  (t <> 0 -> t * z < 1 ->
   0 < 1 - z * t /\
   BardinIMDRadCorIntegrand (Fin z) [Fin t] = Fin (ln (1 - z * t) / t)).
Proof.
  unfold BardinIMDRadCorIntegrand. split.
  - intros [-> | H].
    + change (d_eqb (Fin 0) (Fin 0)) with (Reqb 0 0). by rewrite Reqb_true.
    + destruct (d_eqb (Fin t) (Fin 0)); [done|].
      rewrite mul_fin, leb_fin, Rleb_true; [done|lra].
  - intros Ht Hz.
    assert (Hpos : 0 < 1 - z * t) by lra.
    split; [exact Hpos|].
    change (d_eqb (Fin t) (Fin 0)) with (Reqb t 0). rewrite Reqb_false by done.
    rewrite mul_fin, leb_fin, Rleb_false by lra.
    rewrite mul_fin, sub_fin, Log_fin by lra. by rewrite div_fin.
Qed.

Lemma integrand_finite (z t : R) :
  exists v, BardinIMDRadCorIntegrand (Fin z) [Fin t] = Fin v.
Proof.
  destruct (integrand_guarded z t) as [H0 H1].
  destruct (Req_dec_T t 0) as [Ht|Ht]; [eexists; apply H0; by left|].
  destruct (Rlt_dec (t * z) 1) as [Hz|Hz].
  - eexists. by apply H1.
  - eexists. apply H0. right. lra.
Qed.

Lemma Li2_finite self (ig : IntegratorI) (z : R) :
  fIntegrator self = Some ig -> finite_integrator ig ->
  exists v, Li2 self (Fin z) = Ok (Fin v).
Proof.
  intros Hig Hfin. rewrite (Li2_bound self ig) by done.
  destruct (Hfin (mkGSFunc (BardinIMDRadCorIntegrand (Fin z))
                    [("t"%string, mkRange1D (Fin 1e-2) (Fin (1.0 - 1e-2)))])
              "t"%string 1e-2 (1.0 - 1e-2) eq_refl) as [v Hv].
  - lra.
  - intros t _. apply integrand_finite.
  - rewrite Hv. by eexists.
Qed.

(** Whatever [ymax] comes to, a y that passes the upper test is at most
    1 - 1e-5. *)
Lemma ymax_clamped (E : double) (yb : R) :
  d_ltb (AllowedYMax E) (Fin yb) = false -> yb <= 1 - 1e-5.
Proof.
  unfold AllowedYMax, Min. rewrite sub_fin.
  match goal with |- context [d_leb ?x ?b] =>
    destruct x as [ym| | |] eqn:Ea; cbn [d_leb ideal Dbl.leb] end.
  - unfold Rleb. destruct (Rle_dec ym (1 - 1e-5)); rewrite ltb_fin;
      unfold Rltb; intros H.
    + destruct (Rlt_dec ym yb); [done|lra].
    + destruct (Rlt_dec (1 - 1e-5) yb); [done|lra].
  - rewrite ltb_fin. unfold Rltb.
    destruct (Rlt_dec (1 - 1e-5) yb); [done|lra].
  - done.
  - rewrite ltb_fin. unfold Rltb.
    destruct (Rlt_dec (1 - 1e-5) yb); [done|lra].
Qed.

Lemma BardinC_finite (i k : Z) (r : R) : exists v, C i k (Fin r) = Fin v.
Proof.
  unfold C.
  repeat case_bool_decide;
    rewrite ?Power_fin by (right; lia);
    rewrite ?mul_fin, ?add_fin, ?sub_fin, ?mul_fin, ?add_fin, ?sub_fin;
    rewrite ?div_fin by lra;
    rewrite ?mul_fin, ?add_fin, ?sub_fin, ?mul_fin, ?add_fin, ?sub_fin;
    by eexists.
Qed.

Lemma BardinP_finite (i : Z) (r yb : R) :
  yb <> 0 -> exists v, Bardin.P i (Fin r) (Fin yb) = Fin v.
Proof.
  intros Hy. unfold Bardin.P.
  change (map _ (seq 0 _)) with [(-3)%Z; (-2)%Z; (-1)%Z; 0%Z; 1%Z; 2%Z].
  cbn [fold_left].
  destruct (BardinC_finite i (-3) r) as [c1 ->].
  destruct (BardinC_finite i (-2) r) as [c2 ->].
  destruct (BardinC_finite i (-1) r) as [c3 ->].
  destruct (BardinC_finite i 0 r) as [c4 ->].
  destruct (BardinC_finite i 1 r) as [c5 ->].
  destruct (BardinC_finite i 2 r) as [c6 ->].
  rewrite !Power_fin by (by left).
  rewrite !mul_fin, !add_fin. by eexists.
Qed.

(** Inside the window every logarithm of [Fa] has a positive argument and
    every quotient a divisor other than zero. *)
Lemma Fa_finite self (ig : IntegratorI) (re r yb : R) :
  fIntegrator self = Some ig -> finite_integrator ig ->
  0 < re -> 0 < r -> r + re <= yb -> yb < 1 ->
  exists v, Fa self (Fin re) (Fin r) (Fin yb) = Ok (Fin v).
Proof.
  intros Hig Hfin Hre Hr Hlo Hhi.
  assert (Hy : 0 < yb) by lra.
  assert (Hrre : 0 < r * re) by nra.
  assert (Hry : 0 < r / yb) by (apply Rdiv_lt_0_compat; lra).
  assert (Hry1 : r / yb < 1).
  { apply (Rmult_lt_reg_r yb); [lra|]. unfold Rdiv.
    rewrite Rmult_assoc, Rinv_l by lra. lra. }
  assert (F1 : 0 < yb * yb / (r * re)) by (apply Rdiv_lt_0_compat; nra).
  assert (F2 : 0 < 1 - r / yb) by lra.
  assert (F3 : 0 < yb / r) by (apply Rdiv_lt_0_compat; lra).
  assert (F4 : 0 < (yb - r) / (1 - r)) by (apply Rdiv_lt_0_compat; lra).
  unfold Fa. cbv zeta.
  rewrite !mul_fin, !sub_fin.
  rewrite !div_fin by lra.
  rewrite !sub_fin.
  rewrite !div_fin by lra.
  do 5 (match goal with
        | |- context [Li2 self (Fin ?z)] =>
            let v := fresh "li2" in
            let Hv := fresh "Hli2" in
            destruct (Li2_finite self ig z Hig Hfin) as [v Hv];
            rewrite Hv; cbn [bind]
        end).
  rewrite !Log_fin by lra.
  destruct (BardinP_finite 1 r yb) as [p1 ->]; [lra|].
  destruct (BardinP_finite 2 r yb) as [p2 ->]; [lra|].
  destruct (BardinP_finite 3 r yb) as [p3 ->]; [lra|].
  destruct (BardinP_finite 4 r yb) as [p4 ->]; [lra|].
  destruct (BardinP_finite 5 r yb) as [p5 ->]; [lra|].
  destruct (BardinP_finite 6 r yb) as [p6 ->]; [lra|].
  repeat (rewrite mul_fin || rewrite add_fin || rewrite sub_fin).
  by eexists.
Qed.

Lemma valid_kinematics_energy (interaction : Interaction double) (Ev : R) :
  constants_ok ->
  GetProbeE (GetInitialState interaction) = Fin Ev ->
  kISkipKinematicChk interaction = false ->
  ValidKinematics interaction = true ->
  0 < Ev.
Proof.
  intros (Hme & Hme2 & Hmu & _) HE Hskip. unfold ValidKinematics.
  rewrite Hskip, HE, !mul_fin, add_fin, ltb_fin. unfold Rltb.
  destruct (Rlt_dec _ _) as [|Hn]; [done|]. intros _.
  assert (H2 : 0 < kElectronMass_2) by (rewrite Hme2; nra).
  nra.
Qed.

(** For a finite, positive probe energy and a finite y, with an integrator
    bound, [XSec] returns a finite number. *)
Lemma XSec_finite self (ig : IntegratorI) (interaction : Interaction double)
    (Ev yv : R) :
  constants_ok ->
  fIntegrator self = Some ig -> finite_integrator ig ->
  GetProbeE (GetInitialState interaction) = Fin Ev ->
  y (GetKinematics interaction) = Fin yv ->
  kISkipKinematicChk interaction = false \/ 0 < Ev ->
  exists v, XSec self interaction = Ok (Fin v).
Proof.
  intros Hc Hig Hfin HE Hy Hpos. unfold XSec.
  destruct (negb (ValidProcess interaction)); [by eexists|].
  destruct (ValidKinematics interaction) eqn:Hvk; cbn [negb]; [|by eexists].
  assert (HEv : 0 < Ev).
  { destruct Hpos as [Hskip|]; [|done].
    by apply (valid_kinematics_energy interaction Ev). }
  rewrite HE, Hy.
  match goal with |- context [if ?c then Ok (Fin 0) else _] =>
    destruct c eqn:Hwin end; [by eexists|].
  apply orb_false_iff in Hwin. destruct Hwin as [Hlo Hhi].
  rewrite sub_fin in Hlo, Hhi.
  apply (ymax_clamped (Fin Ev)) in Hhi.
  destruct (re_r_fin Ev Hc HEv) as (Hre & Hr & Hre0 & Hr0 & _).
  set (re := 0.5 * kElectronMass / Ev) in *.
  set (r := kMuonMass_2 / kElectronMass_2 * re) in *.
  rewrite Hr, Hre in Hlo. rewrite add_fin, ltb_fin in Hlo.
  unfold Rltb in Hlo. destruct (Rlt_dec _ _) as [|Hge]; [done|].
  rewrite sub_fin, !Hr, !Hre.
  destruct (Fa_finite self ig re r (1 - yv) Hig Hfin) as [fa ->]; try lra.
  cbn [bind].
  destruct Hc as (_ & _ & _ & Hpi).
  rewrite !mul_fin, !div_fin by lra.
  repeat (rewrite mul_fin || rewrite add_fin || rewrite sub_fin).
  destruct (kIAssumeFreeNucleon interaction); by eexists.
Qed.


End BardinProps.

(** *** The sample neutrino *)

Lemma sample_constants_ok : Bardin.constants_ok (consts := Sample.constants).
Proof.
  unfold Bardin.constants_ok. cbn. repeat split; lra.
Qed.

Lemma midpoint_finite : Bardin.finite_integrator Sample.midpoint.
Proof.
  intros f name a b Hf Hab Hv. unfold Sample.midpoint. rewrite Hf.
  cbn [Bardin.min Bardin.max].
  rewrite sub_fin, add_fin, div_fin by lra.
  destruct (Hv ((a + b) / 2)%R) as [v ->]; [lra|].
  rewrite mul_fin. by eexists.
Qed.

Lemma forbidden_kinematics_zero_witness :
  Bardin.XSec (consts := Sample.constants) Sample.imd Sample.numu5 = Ok (Fin 0).
Proof.
  destruct (forbidden_kinematics_zero (consts := Sample.constants)
              Sample.imd Sample.numu5 sample_constants_ok)
    as (_ & Hbelow & _ & _).
  apply Hbelow.
  - reflexivity.
  - cbn. apply Rltb_true. lra.
Defined.


(** ** The interaction selector *)

Section SelectorProps.
Import Selector.
Context {D : Type} {ops : DoubleOps D} {rnd : RandomSource D}.
Implicit Types (igmp : InteractionGeneratorMap (D := D)) (table : WeightTable (D := D)).

Lemma ComputeWeights_channels (fUseSplines : bool) igmp (p4 : TLorentzVector D) :
  map fst (ComputeWeights fUseSplines igmp p4) = map channel_id igmp.
Proof.
  unfold ComputeWeights. rewrite map_map. by apply map_ext.
Qed.

Lemma SelectChannel_in (u : D) table : forall (W : D) (c : Z),
  SelectChannel u W table = Some c -> c ∈ map fst table.
Proof.
  induction table as [|[c' w] table IH]; intros W c H; [done|].
  simpl in *. destruct (d_ltb u (d_add W w)).
  - inversion H; subst. apply list_elem_of_here.
  - apply list_elem_of_further. by eapply IH.
Qed.

(** The channel selected is the first whose cumulative weight exceeds
    the draw. *)
Lemma SelectChannel_first_bucket (u : D) table : forall (W : D) (c : Z),
  SelectChannel u W table = Some c ->
  exists (i : nat) (w Wi : D),
    table !! i = Some (c, w) /\
    Cumulative W table !! i = Some Wi /\
    d_ltb u Wi = true /\
    forall (j : nat) (Wj : D),
      (j < i)%nat -> Cumulative W table !! j = Some Wj -> d_ltb u Wj = false.
Proof.
  induction table as [|[c' w] table IH]; intros W c H; [done|].
  simpl in H. destruct (d_ltb u (d_add W w)) eqn:Hu.
  - inversion H; subst. exists 0%nat, w, (d_add W w).
    repeat split; auto. intros j Wj Hj. lia.
  - destruct (IH _ _ H) as (i & w' & Wi & Hi & HWi & Hlt & Hfirst).
    exists (S i), w', Wi. repeat split; auto.
    intros [|j] Wj Hj HWj; simpl in HWj.
    + by inversion HWj; subst.
    + apply (Hfirst j); [lia|done].
Qed.

(** The total weight is the last term of the cumulative sequence. *)
Lemma WLast_Cumulative table :
  WLast table = default d_zero (last (Cumulative d_zero table)).
Proof.
  unfold WLast. generalize (d_zero (D := D)).
  induction table as [|[c w] table IH]; intros W; [done|].
  cbn [fold_left snd Cumulative]. rewrite IH, last_cons.
  by destruct (last (Cumulative (d_add W w) table)).
Qed.

Lemma FindChannel_in (c : Z) igmp :
  c ∈ map channel_id igmp ->
  exists ch, FindChannel c igmp = Some ch /\ channel_id ch = c.
Proof.
  unfold FindChannel. induction igmp as [|ch igmp IH]; simpl; intros H.
  - by apply elem_of_nil in H.
  - case_bool_decide as Hc; [by exists ch|].
    apply elem_of_cons in H. destruct H as [H|H]; [done|]. by apply IH.
Qed.

(** The channel selected is decided by the weight table and the state of
    the random source. *)
Lemma selected_channel_table (fUseSplines : bool) igmp (p4 : TLorentzVector D)
    (gen : RandomGen) :
  let table := ComputeWeights fUseSplines igmp p4 in
  selected_channel (SelectInteraction fUseSplines igmp p4 gen).1
  = (if d_leb (WLast table) d_zero then None
     else SelectChannel (Uniform gen (WLast table)).1 d_zero table) /\
  (SelectInteraction fUseSplines igmp p4 gen).2
  = (if d_leb (WLast table) d_zero then gen
     else (Uniform gen (WLast table)).2).
Proof.
  intros table. unfold SelectInteraction. fold table.
  destruct (d_leb (WLast table) d_zero); [done|].
  destruct (Uniform gen (WLast table)) as [u gen']. simpl.
  destruct (SelectChannel u d_zero table) as [c|] eqn:Hs; [|done].
  apply SelectChannel_in in Hs. unfold table in Hs.
  rewrite ComputeWeights_channels in Hs.
  destruct (FindChannel_in c igmp Hs) as (ch & -> & _). done.
Qed.


(** C6: when the total weight is not positive, the selector ends in
    [Failed] with no event seed; the call returns normally, and the random
    source has not been drawn from. *)
Theorem selector_fails_without_weight (fUseSplines : bool) igmp
    (p4 : TLorentzVector D) (gen : RandomGen) :
  d_leb (WLast (ComputeWeights fUseSplines igmp p4)) d_zero = true ->
  SelectInteraction fUseSplines igmp p4 gen = (Failed, gen) /\
  event_seed (SelectInteraction fUseSplines igmp p4 gen).1 = None.
Proof.
  intros H. unfold SelectInteraction. by rewrite H.
Qed.

End SelectorProps.

(** A table of zero weights has total weight zero, on the extended reals. *)
Lemma WLast_all_zero (table : Selector.WeightTable (D := double)) :
  Forall (fun cw => cw.2 = Fin 0) table ->
  Selector.WLast table = Fin 0 /\
  d_leb (Selector.WLast table) d_zero = true.
Proof.
  intros H. cut (Selector.WLast table = Fin 0).
  { intros ->. split; [done|]. apply Rleb_true. lra. }
  unfold Selector.WLast. generalize (eq_refl : d_zero = Fin 0).
  generalize (d_zero (D := double)).
  induction H as [|[c w] table Hw _ IH]; intros W ->; [done|].
  cbn [fold_left snd] in *. subst. apply IH.
  rewrite add_fin. f_equal. lra.
Qed.


Lemma selector_fails_without_weight_witness :
  Selector.SelectInteraction (rnd := Sample.lcg64) false Sample.closed64
    Sample.probe64 (Selector.SetSeed 42)
  = (Selector.Failed, Selector.SetSeed (RandomSource := Sample.lcg64) 42).
Proof.
  apply (selector_fails_without_weight (rnd := Sample.lcg64) false
           Sample.closed64 Sample.probe64 (Selector.SetSeed 42)).
  reflexivity.
Defined.

(** * Further properties of the code *)

(** ** The binding correction: what it leaves alone *)

Section AggregatorFrame.
Context {D : Type} {ops : DoubleOps D} {env : NuclearEnv D}.
Implicit Types (p q : GHepParticle D) (event_rec : GHepRecord D).

Lemma corrected_from_same_kind event_rec (l : list (GHepParticle D)) :
  forall i : nat, Forall2 same_kind l (corrected_from event_rec i l).
Proof.
  induction l as [|p l IH]; intros i; simpl; constructor; auto.
  destruct (eligible event_rec i p);
    auto using same_kind_refl, same_kind_SubtractBindingEnergy.
Qed.

Lemma bindinos_from_motherless event_rec (l : list (GHepParticle D)) :
  forall i : nat,
    Forall (fun q => FirstMother q = (-1)%Z) (bindinos_from event_rec i l).
Proof.
  induction l as [|p l IH]; intros i; simpl; [constructor|].
  destruct (eligible event_rec i p); [|done]. by constructor.
Qed.

Lemma nothing_eligible event_rec (l : list (GHepParticle D)) : forall i : nat,
  (forall (j : nat) p, l !! j = Some p -> eligible event_rec (i + j) p = false) ->
  corrected_from event_rec i l = l /\ bindinos_from event_rec i l = [].
Proof.
  induction l as [|p l IH]; intros i H; [done|]. simpl.
  pose proof (H 0%nat p eq_refl) as H0. rewrite Nat.add_0_r in H0. rewrite H0.
  destruct (IH (S i)) as [-> ->]; [|done].
  intros j p' Hl. rewrite Nat.add_succ_l, <- Nat.add_succ_r. by apply (H (S j)).
Qed.

(** X1: the correction rewrites 4-momenta only.  The interaction of the
    record and, for every particle that was in it, the code, the status,
    the mother and daughter positions and the position 4-vector are as
    before; the particles appended have no mother, no daughter, and sit at
    the origin. *)
Theorem binding_correction_frame event_rec (fuel : nat) :
  well_formed event_rec ->
  (2 * length (particles event_rec) <= fuel)%nat ->
  exists event_rec',
    ProcessEventRecord fuel event_rec = Ok event_rec' /\
    GetInteraction event_rec' = GetInteraction event_rec /\
    (forall (i : nat) p,
       particles event_rec !! i = Some p ->
       exists q,
         particles event_rec' !! i = Some q /\
         PdgCode q = PdgCode p /\ Status q = Status p /\
         FirstMother q = FirstMother p /\ LastMother q = LastMother p /\
         FirstDaughter q = FirstDaughter p /\ LastDaughter q = LastDaughter p /\
         V4 q = V4 p) /\
    (forall (k : nat) bq,
       particles event_rec' !! (length (particles event_rec) + k)%nat = Some bq ->
       FirstMother bq = (-1)%Z /\ LastMother bq = (-1)%Z /\
       FirstDaughter bq = (-1)%Z /\ LastDaughter bq = (-1)%Z /\
       V4 bq = mkTLorentzVector d_zero d_zero d_zero d_zero).
Proof.
  intros Hwf Hf. exists (ProcessEventRecord_spec event_rec).
  split; [by apply ProcessEventRecord_correct|]. split; [reflexivity|]. split.
  - intros i p Hl. rewrite (ProcessEventRecord_spec_lookup _ _ _ Hl).
    eexists. split; [reflexivity|].
    by destruct (eligible event_rec i p).
  - intros k bq Hk. rewrite ProcessEventRecord_spec_bindino in Hk.
    destruct (bindinos_from_inv event_rec _ _ _ _ Hk) as (j & p & _ & _ & _ & ->).
    by repeat split.
Qed.

(** X2: a record in which no particle meets conditions (a), (b) and (c),
    the empty record among them, comes back as it was. *)
Theorem binding_correction_nothing_bound event_rec (fuel : nat) :
  well_formed event_rec ->
  (2 * length (particles event_rec) <= fuel)%nat ->
  (forall (i : nat) p,
     particles event_rec !! i = Some p -> ~ bound_nucleon event_rec p) ->
  ProcessEventRecord fuel event_rec = Ok event_rec.
Proof.
  intros Hwf Hf Hnone.
  rewrite ProcessEventRecord_correct by done.
  unfold ProcessEventRecord_spec.
  destruct (nothing_eligible event_rec (particles event_rec) 0) as [-> ->].
  - intros j p Hl. simpl.
    destruct (eligible event_rec j p) eqn:He; [|done].
    exfalso. apply (Hnone j p Hl). by apply (eligible_bound_nucleon _ j).
  - rewrite app_nil_r. by destruct event_rec.
Qed.

(** X7: [FindMotherNucleus] dereferences a null pointer exactly when the
    position it is asked about is outside the record, or the mother is set
    but outside the record, or the mother is a nucleon target whose own
    mother is set but outside the record. *)
Theorem FindMotherNucleus_null_iff event_rec (ipos : Z) :
  FindMotherNucleus ipos event_rec = NullDeref <->
  Particle event_rec ipos = None \/
  exists p,
    Particle event_rec ipos = Some p /\ FirstMother p <> (-1)%Z /\
    (Particle event_rec (FirstMother p) = None \/
     exists mother,
       Particle event_rec (FirstMother p) = Some mother /\
       Status mother = kIstNucleonTarget /\
       FirstMother mother <> (-1)%Z /\
       Particle event_rec (FirstMother mother) = None).
Proof.
  unfold FindMotherNucleus.
  destruct (Particle event_rec ipos) as [p|]; [|split; auto].
  split.
  - intros H. right. exists p. split; [done|].
    case_bool_decide as H1; [|done]. split; [done|].
    destruct (Particle event_rec (FirstMother p)) as [m|]; [|by left].
    right. exists m. split; [done|].
    case_bool_decide as H2; [|done].
    case_bool_decide as H3; [|done].
    destruct (Particle event_rec (FirstMother m)) as [g|]; [|done].
    by destruct (IsIon (PdgCode g)).
  - intros [H|(p' & Hp & H1 & H)]; [done|]. inversion Hp; subst p'.
    rewrite bool_decide_eq_true_2 by done.
    destruct H as [-> |(m & -> & H2 & H3 & Hg)]; [done|].
    rewrite bool_decide_eq_true_2 by done.
    rewrite bool_decide_eq_true_2 by done. by rewrite Hg.
Qed.

End AggregatorFrame.

(** ** The binding correction applied twice *)

Section AggregatorTwice.
Context {D : Type} {ops : DoubleOps D} {env : NuclearEnv D}.
Implicit Types (p q : GHepParticle D) (event_rec : GHepRecord D).

Lemma mother_ok_mono (n n' : nat) p :
  (n <= n')%nat -> mother_ok n p -> mother_ok n' p.
Proof. intros Hn [H|H]; [by left|right; lia]. Qed.

Lemma spec_well_formed event_rec :
  well_formed event_rec -> well_formed (ProcessEventRecord_spec event_rec).
Proof.
  unfold well_formed. intros Hwf. simpl. rewrite length_app, length_corrected_from.
  apply Forall_app. split.
  - apply Forall_forall. intros q Hq.
    apply list_elem_of_lookup in Hq. destruct Hq as [i Hi].
    destruct (Forall2_lookup_r _ _ _ _ _
                (corrected_from_same_kind event_rec _ 0) Hi)
      as (p & Hp & (_ & _ & Hm)).
    rewrite Forall_forall in Hwf.
    assert (Hok : mother_ok (length (particles event_rec)) p).
    { apply Hwf. by eapply list_elem_of_lookup_2. }
    apply (mother_ok_mono (length (particles event_rec))); [lia|].
    unfold mother_ok in *. by rewrite <- Hm.
  - eapply Forall_impl; [apply bindinos_from_motherless|].
    intros q Hq. by left.
Qed.

(** After the pass, the three conditions hold at the positions where they
    held before, and at none of the appended ones. *)
Lemma eligible_after event_rec (i : nat) p :
  well_formed event_rec ->
  particles event_rec !! i = Some p ->
  forall q, same_kind p q ->
    eligible (ProcessEventRecord_spec event_rec) i q = eligible event_rec i p.
Proof.
  intros Hwf Hl q (Hc & Hs & _). unfold eligible. rewrite <- Hc, <- Hs. f_equal.
  destruct event_rec as [I l0]. unfold ProcessEventRecord_spec. simpl in *.
  destruct (has_nucleus_grown I I l0 (corrected_from (mkGHepRecord I l0) 0 l0)
              (bindinos_from (mkGHepRecord I l0) 0 l0) i Hwf
              (corrected_from_same_kind _ _ 0)) as (o' & Ho' & ->).
  { by eapply lookup_lt_Some. }
  unfold has_nucleus. rewrite Ho'. by destruct o'.
Qed.

Lemma eligible_after_bindino event_rec (k : nat) bq :
  particles (ProcessEventRecord_spec event_rec)
    !! (length (particles event_rec) + k)%nat = Some bq ->
  eligible (ProcessEventRecord_spec event_rec)
    (length (particles event_rec) + k) bq = false.
Proof.
  intros Hk. unfold eligible, has_nucleus, FindMotherNucleus.
  rewrite Particle_lookup, Hk.
  rewrite ProcessEventRecord_spec_bindino in Hk.
  destruct (bindinos_from_inv event_rec _ _ _ _ Hk) as (j & p & _ & _ & _ & ->).
  simpl. by rewrite !andb_false_r.
Qed.

Lemma count_eligible_from_corrected event_rec event_rec'
    (l : list (GHepParticle D)) : forall i : nat,
  (forall (j : nat) p q,
     l !! j = Some p -> same_kind p q ->
     eligible event_rec' (i + j) q = eligible event_rec (i + j) p) ->
  count_eligible_from event_rec' i (corrected_from event_rec i l)
  = count_eligible_from event_rec i l.
Proof.
  induction l as [|p l IH]; intros i H; [done|]. simpl.
  rewrite IH.
  - f_equal. pose proof (H 0%nat p) as H0. rewrite Nat.add_0_r in H0.
    rewrite H0; [done|done|].
    destruct (eligible event_rec i p);
      auto using same_kind_refl, same_kind_SubtractBindingEnergy.
  - intros j p' q Hl Hk. rewrite Nat.add_succ_l, <- Nat.add_succ_r.
    by apply (H (S j)).
Qed.

Lemma count_eligible_from_none event_rec (l : list (GHepParticle D)) :
  forall i : nat,
    (forall (j : nat) q, l !! j = Some q -> eligible event_rec (i + j) q = false) ->
    count_eligible_from event_rec i l = 0%nat.
Proof.
  induction l as [|p l IH]; intros i H; [done|]. simpl.
  pose proof (H 0%nat p eq_refl) as H0. rewrite Nat.add_0_r in H0. rewrite H0.
  rewrite IH; [done|].
  intros j q Hl. rewrite Nat.add_succ_l, <- Nat.add_succ_r. by apply (H (S j)).
Qed.

Lemma bound_count_after event_rec :
  well_formed event_rec ->
  bound_count (ProcessEventRecord_spec event_rec) = bound_count event_rec.
Proof.
  intros Hwf. unfold bound_count.
  change (particles (ProcessEventRecord_spec event_rec))
    with (corrected_from event_rec 0 (particles event_rec)
          ++ bindinos_from event_rec 0 (particles event_rec)).
  rewrite count_eligible_from_app, length_corrected_from.
  rewrite count_eligible_from_corrected.
  - rewrite (count_eligible_from_none (ProcessEventRecord_spec event_rec)
               (bindinos_from event_rec 0 (particles event_rec))); [lia|].
    intros j q Hq. simpl. apply eligible_after_bindino.
    by rewrite ProcessEventRecord_spec_bindino.
  - intros j p q Hl Hk. simpl. by apply eligible_after.
Qed.

(** X6: the pass is not idempotent.  Run a second time on its own result,
    it takes the binding energy from every bound nucleon once more and
    appends a second BINDINO for each; the other particles stay as they
    were. *)
Theorem binding_correction_twice event_rec (fuel1 fuel2 : nat) :
  well_formed event_rec ->
  (2 * length (particles event_rec) <= fuel1)%nat ->
  (2 * (length (particles event_rec) + bound_count event_rec) <= fuel2)%nat ->
  exists event_rec' event_rec'',
    ProcessEventRecord fuel1 event_rec = Ok event_rec' /\
    ProcessEventRecord fuel2 event_rec' = Ok event_rec'' /\
    length (particles event_rec'')
    = (length (particles event_rec) + 2 * bound_count event_rec)%nat /\
    forall (i : nat) p,
      particles event_rec !! i = Some p ->
      (bound_nucleon event_rec p ->
       particles event_rec'' !! i
       = Some (SubtractBindingEnergy (bindE_of event_rec)
                 (SubtractBindingEnergy (bindE_of event_rec) p)) /\
       exists q,
         particles event_rec'' !! i = Some q /\
         Energy q
         = d_sub (d_sub (Energy p) (bindE_of event_rec)) (bindE_of event_rec)) /\
      (~ bound_nucleon event_rec p -> particles event_rec'' !! i = Some p).
Proof.
  intros Hwf Hf1 Hf2.
  set (event_rec' := ProcessEventRecord_spec event_rec).
  assert (Hlen' : length (particles event_rec')
                  = (length (particles event_rec) + bound_count event_rec)%nat).
  { simpl. by rewrite length_app, length_corrected_from, length_bindinos_from. }
  exists event_rec', (ProcessEventRecord_spec event_rec').
  split; [by apply ProcessEventRecord_correct|].
  split.
  { apply ProcessEventRecord_correct; [by apply spec_well_formed|].
    rewrite Hlen'. lia. }
  split.
  { change (length (particles (ProcessEventRecord_spec event_rec')))
      with (length (corrected_from event_rec' 0 (particles event_rec')
                    ++ bindinos_from event_rec' 0 (particles event_rec'))).
    rewrite length_app, length_corrected_from, length_bindinos_from, Hlen'.
    fold (bound_count event_rec'). unfold event_rec'.
    rewrite bound_count_after by done. lia. }
  intros i p Hl.
  pose proof (ProcessEventRecord_spec_lookup event_rec i p Hl) as Hq.
  fold event_rec' in Hq.
  pose proof (eligible_bound_nucleon event_rec i p Hl) as Hiff.
  destruct (eligible event_rec i p) eqn:He.
  - assert (He' : eligible event_rec' i
                    (SubtractBindingEnergy (bindE_of event_rec) p) = true).
    { unfold event_rec'. rewrite (eligible_after event_rec i p Hwf Hl); [done|].
      apply same_kind_SubtractBindingEnergy. }
    rewrite (ProcessEventRecord_spec_lookup event_rec' i _ Hq), He'.
    split; [|intros Hn; exfalso; apply Hn; by apply Hiff].
    intros _. split; [reflexivity|]. eexists. split; reflexivity.
  - assert (He' : eligible event_rec' i p = false).
    { unfold event_rec'. rewrite (eligible_after event_rec i p Hwf Hl); [done|].
      apply same_kind_refl. }
    rewrite (ProcessEventRecord_spec_lookup event_rec' i _ Hq), He'.
    split; [|done]. intros Hb. apply Hiff in Hb. discriminate.
Qed.

End AggregatorTwice.

(** ** The binding correction on the extended reals: energy, momentum, mass *)

Section AggregatorKinematics.
Context {env : NuclearEnv double}.
Implicit Types (p q : GHepParticle double) (event_rec : GHepRecord double).
Local Open Scope R_scope.

Lemma total_P4_fin (l : list (GHepParticle double)) :
  Forall finite_P4 l ->
  total_P4 l
  = mkTLorentzVector (Fin (rsum Px l)) (Fin (rsum Py l)) (Fin (rsum Pz l))
      (Fin (rsum Energy l)).
Proof.
  induction 1 as [|p l (px & py & pz & e & HP) _ IH]; [done|].
  cbn [total_P4 foldr rsum]. fold (total_P4 l). rewrite IH.
  fold (rsum Px l) (rsum Py l) (rsum Pz l) (rsum Energy l).
  unfold Px, Py, Pz, Energy, add4. rewrite HP. cbn [vX vY vZ vT value].
  by rewrite !add_fin.
Qed.

Lemma rsum_app (f : GHepParticle double -> double) (l1 l2 : list (GHepParticle double)) :
  rsum f (l1 ++ l2) = rsum f l1 + rsum f l2.
Proof.
  induction l1 as [|p l1 IH]; cbn [rsum foldr app].
  - fold (rsum f l2). lra.
  - fold (rsum f (l1 ++ l2)) (rsum f l1). rewrite IH. lra.
Qed.

Lemma moving_positive (px py pz e : R) :
  P (mkTLorentzVector (Fin px) (Fin py) (Fin pz) (Fin e)) <> Fin 0 ->
  0 < sqrt (px * px + py * py + pz * pz).
Proof.
  rewrite P_fin. intros H.
  destruct (sqrt_pos (px * px + py * py + pz * pz)) as [|Heq]; [done|].
  exfalso. apply H. by rewrite <- Heq.
Qed.

(** Nucleon by nucleon, what the corrected particles and the BINDINOs
    carry together is what the particles carried. *)
Lemma corrected_sums event_rec (b : R) (l : list (GHepParticle double)) :
  bindE_of event_rec = Fin b ->
  forall i : nat,
    Forall finite_P4 l ->
    (forall (j : nat) p,
       l !! j = Some p -> eligible event_rec (i + j) p = true ->
       (exists m : R, Mass p = Fin m) /\ P (P4 p) <> Fin 0) ->
    Forall finite_P4 (corrected_from event_rec i l) /\
    Forall finite_P4 (bindinos_from event_rec i l) /\
    rsum Px (corrected_from event_rec i l) + rsum Px (bindinos_from event_rec i l)
    = rsum Px l /\
    rsum Py (corrected_from event_rec i l) + rsum Py (bindinos_from event_rec i l)
    = rsum Py l /\
    rsum Pz (corrected_from event_rec i l) + rsum Pz (bindinos_from event_rec i l)
    = rsum Pz l /\
    rsum Energy (corrected_from event_rec i l)
    + rsum Energy (bindinos_from event_rec i l)
    = rsum Energy l.
Proof.
  intros HbE. induction l as [|p l IH]; intros i Hfin Hmov.
  - cbn. repeat split; auto; lra.
  - inversion Hfin as [|? ? Hp Hl]; subst.
    destruct (IH (S i) Hl) as (Hc & Hb & Hx & Hy & Hz & He).
    { intros j p' Hj. rewrite Nat.add_succ_l, <- Nat.add_succ_r.
      by apply (Hmov (S j)). }
    cbn [corrected_from bindinos_from].
    destruct (eligible event_rec i p) eqn:Hel.
    + destruct (Hmov 0%nat p eq_refl) as ((m & HM) & Hne);
        [by rewrite Nat.add_0_r|].
      destruct Hp as (px & py & pz & e & HP). rewrite HP in Hne.
      apply moving_positive in Hne.
      destruct (SubtractBindingEnergy_moving p px py pz e m b HP HM Hne)
        as [Hq Hbq].
      rewrite HbE.
      split; [constructor; [by eexists _, _, _, _|done]|].
      split; [constructor; [by eexists _, _, _, _|done]|].
      cbn [rsum foldr].
      fold (rsum Px (corrected_from event_rec (S i) l))
           (rsum Py (corrected_from event_rec (S i) l))
           (rsum Pz (corrected_from event_rec (S i) l))
           (rsum Energy (corrected_from event_rec (S i) l))
           (rsum Px (bindinos_from event_rec (S i) l))
           (rsum Py (bindinos_from event_rec (S i) l))
           (rsum Pz (bindinos_from event_rec (S i) l))
           (rsum Energy (bindinos_from event_rec (S i) l))
           (rsum Px l) (rsum Py l) (rsum Pz l) (rsum Energy l).
      unfold Px, Py, Pz, Energy in *. cbn [Bindino P4].
      rewrite Hq, Hbq, HP. cbn [vX vY vZ vT value].
      repeat split; lra.
    + split; [by constructor|]. split; [done|].
      cbn [rsum foldr].
      fold (rsum Px (corrected_from event_rec (S i) l))
           (rsum Py (corrected_from event_rec (S i) l))
           (rsum Pz (corrected_from event_rec (S i) l))
           (rsum Energy (corrected_from event_rec (S i) l))
           (rsum Px l) (rsum Py l) (rsum Pz l) (rsum Energy l).
      repeat split; lra.
Qed.


Lemma pmag_facts (px py pz e m b : R) :
  0 < sqrt (px * px + py * py + pz * pz) ->
  let po := sqrt (px * px + py * py + pz * pz) in
  let pn := sqrt (Rmax 0 ((e - b) * (e - b) - m * m)) in
  po * po = px * px + py * py + pz * pz /\
  pn * pn = Rmax 0 ((e - b) * (e - b) - m * m) /\
  0 <= pn /\ 0 <= pn / po /\ pn / po * po = pn.
Proof.
  intros Hpo po pn.
  split; [apply sqrt_sqrt, sum_squares_nonneg|].
  split; [apply sqrt_sqrt, Rmax_l|].
  assert (Hpn : 0 <= pn) by apply sqrt_pos.
  split; [done|]. split.
  - apply Rmult_le_pos; [done|]. left. by apply Rinv_0_lt_compat.
  - field. fold po in Hpo. lra.
Qed.



End AggregatorKinematics.

(** ** The Bardin cross section: further properties *)

Section BardinMore.
Import Bardin.
Context {consts : Constants} {base : AlgorithmBase}.
Local Open Scope R_scope.


(** X9: the cross section for a nucleus is that for a free target times
    the number of protons Z of the target; an error of the free
    calculation is the error of the nuclear one. *)
Theorem XSec_scales_with_Z self (interaction : Interaction double) :
  XSec self (with_free_nucleon false interaction)
  = let* v := XSec self (with_free_nucleon true interaction) in
    Ok (d_mul v (Fin (IZR (TargetZ (GetTarget (GetInitialState interaction)))))).
Proof.
  unfold XSec, with_free_nucleon, ValidProcess, ValidKinematics.
  cbn [GetInitialState GetKinematics kISkipProcessChk kISkipKinematicChk
       kIAssumeFreeNucleon].
  assert (H0 : forall z : R, Ok (Fin 0) = Ok (d_mul (Fin 0) (Fin z))).
  { intros z. by rewrite mul_fin, Rmult_0_l. }
  destruct (negb (if kISkipProcessChk interaction then true else true));
    [apply H0|].
  match goal with |- context [negb ?c] => destruct (negb c) end; [apply H0|].
  match goal with |- context [if ?c then Ok (Fin 0) else _] => destruct c end;
    [apply H0|].
  match goal with |- context [Fa ?s ?a ?b ?c] => destruct (Fa s a b c) end;
    reflexivity.
Qed.



Lemma ln_monotone (x y : R) : 0 < x -> x <= y -> ln x <= ln y.
Proof.
  intros Hx [Hlt| ->]; [|lra]. left. by apply ln_increasing.
Qed.


End BardinMore.

(** ** The binding correction on a record with a dangling mother *)

Section AggregatorDangling.
Context {D : Type} {ops : DoubleOps D} {env : NuclearEnv D}.
Implicit Types (p q : GHepParticle D) (event_rec : GHepRecord D).

(** The loop walks over particles that are not final-state nucleons
    without touching the record. *)
Lemma stdhep_loop_skip event_rec (i : nat) : forall (d k fuel : nat),
  (k + d = i)%nat ->
  (forall (j : nat) q,
     (j < i)%nat -> particles event_rec !! j = Some q ->
     IsNeutronOrProton (PdgCode q)
     && bool_decide (Status q = kIStStableFinalState) = false) ->
  (k + d <= length (particles event_rec))%nat ->
  stdhep_loop (d + fuel) k event_rec = stdhep_loop fuel i event_rec.
Proof.
  induction d as [|d IH]; intros k fuel Hk Hskip Hlen.
  - simpl. by replace k with i by lia.
  - destruct (lookup_lt_is_Some_2 (particles event_rec) k) as [q Hq]; [lia|].
    cbn [stdhep_loop Nat.add]. rewrite Hq. unfold visit.
    rewrite (Hskip k q) by (done || lia). cbn [bind].
    apply IH; [lia|done|lia].
Qed.

(** X13: if the first final-state nucleon of the record names a mother
    that is set but lies outside the record, the pass ends in the
    dereference of a null pointer. *)
Theorem dangling_mother_null_deref event_rec (fuel i : nat) p :
  particles event_rec !! i = Some p ->
  (forall (j : nat) q,
     (j < i)%nat -> particles event_rec !! j = Some q ->
     IsNeutronOrProton (PdgCode q)
     && bool_decide (Status q = kIStStableFinalState) = false) ->
  IsNeutronOrProton (PdgCode p) = true ->
  Status p = kIStStableFinalState ->
  FirstMother p <> (-1)%Z ->
  Particle event_rec (FirstMother p) = None ->
  (i < fuel)%nat ->
  ProcessEventRecord fuel event_rec = NullDeref.
Proof.
  intros Hl Hskip Hnuc Hfs Hm Hdangling Hfuel.
  unfold ProcessEventRecord.
  replace fuel with (i + S (fuel - S i))%nat by lia.
  rewrite (stdhep_loop_skip event_rec i i 0); [|lia|done|].
  2:{ apply lookup_lt_Some in Hl. lia. }
  cbn [stdhep_loop]. rewrite Hl. unfold visit.
  rewrite Hnuc, bool_decide_eq_true_2 by done. cbn [andb].
  unfold FindMotherNucleus. rewrite Particle_lookup, Hl.
  rewrite bool_decide_eq_true_2 by done. by rewrite Hdangling.
Qed.

End AggregatorDangling.

(** ** The further properties on the samples *)

Lemma unbound64_well_formed : well_formed Sample.unbound64.
Proof.
  unfold well_formed. simpl.
  repeat (apply Forall_cons_2; [solve [by left | right; simpl; lia]|]).
  apply Forall_nil_2.
Qed.

Lemma movingR_well_formed : well_formed Sample.movingR.
Proof.
  unfold well_formed. simpl.
  repeat (apply Forall_cons_2; [solve [by left | right; simpl; lia]|]).
  apply Forall_nil_2.
Qed.

Lemma half_squared_positive : (0 < sqrt (0.5 * 0.5 + 0 * 0 + 0 * 0))%R.
Proof. apply sqrt_lt_R0. lra. Qed.

Lemma binding_correction_frame_witness :
  exists event_rec',
    ProcessEventRecord (env := Sample.env64) 10 Sample.event64 = Ok event_rec' /\
    GetInteraction event_rec' = Sample.interaction64.
Proof.
  destruct (binding_correction_frame (env := Sample.env64) Sample.event64 10)
    as (event_rec' & Hrun & HI & _).
  - exact event64_well_formed.
  - simpl. lia.
  - by exists event_rec'.
Defined.

Lemma binding_correction_nothing_bound_witness :
  ProcessEventRecord (env := Sample.env64) 6 Sample.unbound64
  = Ok Sample.unbound64.
Proof.
  apply (binding_correction_nothing_bound (env := Sample.env64)
           Sample.unbound64 6).
  - exact unbound64_well_formed.
  - simpl. lia.
  - intros i p Hl (Ha & Hs & _).
    destruct i as [|[|[|i]]]; simpl in Hl; inversion Hl; subst;
      vm_compute in Ha; vm_compute in Hs; discriminate.
Defined.

Lemma FindMotherNucleus_null_iff_witness :
  FindMotherNucleus (env := Sample.env64) 3 Sample.dangling64 = NullDeref.
Proof.
  apply (FindMotherNucleus_null_iff (env := Sample.env64) Sample.dangling64 3).
  right. eexists. split; [reflexivity|]. split; [done|]. by left.
Defined.

Lemma dangling_mother_null_deref_witness :
  ProcessEventRecord (env := Sample.env64) 8 Sample.dangling64 = NullDeref.
Proof.
  eapply (dangling_mother_null_deref (env := Sample.env64)
            Sample.dangling64 8 3).
  - reflexivity.
  - intros j q Hj Hl.
    destruct j as [|[|[|j]]]; [| | |lia]; inversion Hl; reflexivity.
  - reflexivity.
  - reflexivity.
  - done.
  - reflexivity.
  - lia.
Defined.

Lemma binding_correction_twice_witness :
  exists event_rec' event_rec'',
    ProcessEventRecord (env := Sample.env64) 10 Sample.event64 = Ok event_rec' /\
    ProcessEventRecord (env := Sample.env64) 14 event_rec' = Ok event_rec'' /\
    length (particles event_rec'') = 9%nat.
Proof.
  destruct (binding_correction_twice (env := Sample.env64) Sample.event64 10 14)
    as (event_rec' & event_rec'' & H1 & H2 & Hlen & _).
  - exact event64_well_formed.
  - simpl. lia.
  - vm_compute. lia.
  - by exists event_rec', event_rec''.
Defined.







